(** * Model parameters of a spin chain: a shallow embedding of [sbc/system.py]

    The class [Model] of [sbc/system.py] normalises three optional arrays
    (longitudinal fields, transverse fields, nearest-neighbour couplers):
    it derives the number of sites [L], wraps every plain number in an
    instance of [sbc.scalar.Scalar], lets entries that compare equal share
    one object, and tabulates which sites carry equal transverse fields.

    The embedding follows the Python text statement by statement.  Python
    values are a tagged union of plain numbers and references to [Scalar]
    instances; a reference carries the identity of the object, so that
    two entries are one object when they carry one identity.  List
    indexing can raise, which is an error result; the constructor
    [Scalar(...)] allocates a new object, which is a counter of fresh
    identities threaded through the code. *)

From Stdlib Require Import ZArith QArith String.
From Stdlib Require Import Floats.SpecFloat.
From stdpp Require Import base list gmap sets.

Local Open Scope nat_scope.

(** ** Python numbers *)

(** The plain numbers a caller can put in the arrays: [int] and [float]
    (a binary64, in the representation of the Standard Library). *)
Inductive number : Type :=
  | PyInt (n : Z)
  | PyFloat (f : spec_float).

(** The mathematical value of a number; Python compares an [int] and a
    [float] by their exact values. *)
Inductive real_value : Type :=
  | Finite (q : Q)
  | Infinite (negative : bool)
  | NaN.

Definition float_value (f : spec_float) : real_value :=
  match f with
  | S754_zero _ => Finite 0
  | S754_infinity s => Infinite s
  | S754_nan => NaN
  | S754_finite s m e =>
      let z := if s then Z.neg m else Z.pos m in
      Finite (if (0 <=? e)%Z then inject_Z (z * 2 ^ e)
              else Qmake z (2 ^ Z.to_pos (- e)))
  end.

Definition number_value (x : number) : real_value :=
  match x with
  | PyInt n => Finite (inject_Z n)
  | PyFloat f => float_value f
  end.

(** [x == y] on numbers: [nan] equals nothing, not even itself. *)
Definition number_eq (x y : number) : bool :=
  match number_value x, number_value y with
  | Finite p, Finite q => Qeq_bool p q
  | Infinite a, Infinite b => Bool.eqb a b
  | _, _ => false
  end.

(** The float literal [z.0] (for [|z| < 2^53], the float of value [z]). *)
Definition py_float (z : Z) : number :=
  PyFloat (binary_normalize 53 1024 z 0 false).

(** ** Exceptions and the error monad *)

Inductive exn : Type :=
  | IndexError (msg : string)
  | KeyError (msg : string)
  | TypeError (msg : string).

Inductive outcome (A : Type) : Type :=
  | Ok (a : A)
  | Raise (e : exn).
Arguments Ok {A} a.
Arguments Raise {A} e.

#[global] Instance outcome_ret : MRet outcome := λ A a, Ok a.
#[global] Instance outcome_bind : MBind outcome :=
  λ A B f m, match m with Ok a => f a | Raise e => Raise e end.

(** The message of the [IndexError] raised by [_determine_L]. *)
Definition incompatible_dimensions : exn :=
  IndexError "Parameters ``z_fields``, ``x_fields``, and ``zz_couplers`` are of incompatible dimensions.".

Definition list_index_out_of_range : exn :=
  IndexError "list index out of range".

Definition list_assignment_index_out_of_range : exn :=
  IndexError "list assignment index out of range".

(** [l[i]] for a list [l] and [i >= 0]. *)
Definition getitem {A} (l : list A) (i : nat) : outcome A :=
  match l !! i with
  | Some x => Ok x
  | None => Raise list_index_out_of_range
  end.

(** [l[i] = x] for a list [l] and [i >= 0]; the new contents of [l]. *)
Definition setitem {A} (l : list A) (i : nat) (x : A) : outcome (list A) :=
  if decide (i < length l) then Ok (<[i:=x]> l)
  else Raise list_assignment_index_out_of_range.

(** [range(a, b)]. *)
Definition range (a b : nat) : list nat := seq a (b - a).

(** [for i in r: s = body(i, s)], stopping at the first exception. *)
Fixpoint for_each {S : Type} (r : list nat) (body : nat → S → outcome S)
    (s : S) : outcome S :=
  match r with
  | [] => Ok s
  | i :: r' => s' ← body i s; for_each r' body s'
  end.

(** ** Values, and the class [Model] *)

Section Model.

(** [sbc/scalar.py] is not part of the sources at hand.  The class [Scalar]
    is therefore a parameter: the state of an instance, the state that
    [Scalar(x)] gives a new instance for a number [x], and the method
    [Scalar.__eq__]. Nothing in [sbc/system.py] mutates an instance. *)
Variable ScalarState : Type.

(** An instance of [Scalar]: its identity and its state. *)
Record Scalar : Type := mkScalar { obj_id : nat; obj_state : ScalarState }.

(** An array element: a plain number or (a reference to) a [Scalar]. *)
Inductive value : Type :=
  | Num (x : number)
  | Obj (s : Scalar).

Variable Scalar_init : number → ScalarState.
Variable Scalar_eq : Scalar → value → bool.

Definition isinstance_Scalar (v : value) : bool :=
  match v with Obj _ => true | Num _ => false end.

(** [a == b]. Two numbers are compared as numbers. When the left operand
    is a [Scalar] its [__eq__] decides; when only the right one is, the
    number's own comparison gives [NotImplemented] and Python calls the
    reflected [__eq__] of the [Scalar]. *)
Definition py_eq (a b : value) : bool :=
  match a, b with
  | Num x, Num y => number_eq x y
  | Obj s, _ => Scalar_eq s b
  | Num _, Obj t => Scalar_eq t a
  end.

(** [Scalar(v)] evaluated when [next] is the next fresh identity. The
    code reaches the call only for a [v] that is not a [Scalar]. *)
Definition Scalar_new (x : number) (next : nat) : value :=
  Obj (mkScalar next (Scalar_init x)).

Definition zero : value := Num (PyInt 0).

Record Model : Type := mkModel {
  L : nat;
  x_fields : list value;
  z_fields : list value;
  zz_couplers : list value;
  _map_btwn_site_indices_and_unique_x_fields : list nat
}.

(** [candidate_Ls.add(n)] guarded by the two tests on the parameter. *)
Definition add_candidate (param : option (list value)) (extra : nat)
    (candidate_Ls : gset nat) : gset nat :=
  match param with
  | None => candidate_Ls
  | Some l =>
      if bool_decide (length l ≠ 0) then candidate_Ls ∪ {[ length l + extra ]}
      else candidate_Ls
  end.

Definition candidates (z_fields x_fields zz_couplers : option (list value))
    : gset nat :=
  add_candidate zz_couplers 1
    (add_candidate x_fields 0 (add_candidate z_fields 0 ∅)).

(** [candidate_Ls.pop()]. *)
Definition set_pop (X : gset nat) : outcome nat :=
  match elements X with
  | l :: _ => Ok l
  | [] => Raise (KeyError "pop from an empty set")
  end.

Definition _determine_L (z_fields x_fields zz_couplers : option (list value))
    : outcome nat :=
  let candidate_Ls := candidates z_fields x_fields zz_couplers in
  if bool_decide (size candidate_Ls = 0) then Ok 1
  else if bool_decide (size candidate_Ls ≠ 1) then Raise incompatible_dimensions
  else set_pop candidate_Ls.

(** The body of the inner loop of [_construct_attribute]; the state is
    [(attribute, elem_already_set)]. *)
Definition share_body (ctor_param : list value) (idx1 idx2 : nat)
    (st : list value * list bool) : outcome (list value * list bool) :=
  let '(attribute, elem_already_set) := st in
  c2 ← getitem ctor_param idx2;
  c1 ← getitem ctor_param idx1;
  if py_eq c2 c1 then
    a1 ← getitem attribute idx1;
    attribute ← setitem attribute idx2 a1;
    elem_already_set ← setitem elem_already_set idx2 true;
    Ok (attribute, elem_already_set)
  else Ok st.

(** The wrapping statement at the head of the outer loop; the state is
    [(attribute, next)], [next] being the next fresh identity. *)
Definition wrap_step (idx1 : nat) (st : list value * nat)
    : outcome (list value * nat) :=
  let '(attribute, next) := st in
  a1 ← getitem attribute idx1;
  match a1 with
  | Obj _ => Ok st
  | Num x =>
      attribute ← setitem attribute idx1 (Scalar_new x next);
      Ok (attribute, S next)
  end.

(** The body of the outer loop; the state is
    [(attribute, elem_already_set, next)]. *)
Definition construct_body (ctor_param : list value) (array_size idx1 : nat)
    (st : list value * list bool * nat)
    : outcome (list value * list bool * nat) :=
  let '(attribute, elem_already_set, next) := st in
  '(attribute, next) ← wrap_step idx1 (attribute, next);
  '(attribute, elem_already_set) ←
    for_each (range (idx1 + 1) array_size) (share_body ctor_param idx1)
      (attribute, elem_already_set);
  Ok (attribute, elem_already_set, next).

(** The two defaulting statements at the head of [_construct_attribute]. *)
Definition default_param (ctor_param : option (list value))
    (array_size : nat) : list value :=
  let ctor_param :=
    match ctor_param with
    | None => replicate array_size zero
    | Some l => l
    end in
  if bool_decide (length ctor_param = 0) then replicate array_size zero
  else ctor_param.

(** [self._construct_attribute(ctor_param, array_size)], with [self.L]
    passed as [self_L]; returns the attribute and the next fresh identity. *)
Definition _construct_attribute (self_L : nat)
    (ctor_param : option (list value)) (array_size : nat) (next : nat)
    : outcome (list value * nat) :=
  let ctor_param := default_param ctor_param array_size in
  let attribute := ctor_param in
  let elem_already_set := replicate self_L false in
  '(attribute, _, next) ←
    for_each (range 0 array_size) (construct_body ctor_param array_size)
      (attribute, elem_already_set, next);
  Ok (attribute, next).

(** The body of the inner loop of
    [_calc_map_btwn_site_indices_and_unique_x_fields]. *)
Definition map_body (self_x_fields : list value) (idx1 idx2 : nat)
    (result : list nat) : outcome (list nat) :=
  x2 ← getitem self_x_fields idx2;
  x1 ← getitem self_x_fields idx1;
  if py_eq x2 x1 then
    r1 ← getitem result idx1;
    setitem result idx2 r1
  else Ok result.

Definition _calc_map_btwn_site_indices_and_unique_x_fields (self_L : nat)
    (self_x_fields : list value) : outcome (list nat) :=
  let result := range 0 self_L in
  for_each (range 0 self_L)
    (λ idx1 result,
       for_each (range (idx1 + 1) self_L) (map_body self_x_fields idx1) result)
    result.

(** [Model(z_fields, x_fields, zz_couplers)], evaluated when [next] is the
    next fresh identity; returns the instance and the next fresh identity. *)
Definition __init__ (z_fields x_fields zz_couplers : option (list value))
    (next : nat) : outcome (Model * nat) :=
  self_L ← _determine_L z_fields x_fields zz_couplers;
  '(self_x_fields, next) ← _construct_attribute self_L x_fields self_L next;
  '(self_z_fields, next) ← _construct_attribute self_L z_fields self_L next;
  '(self_zz_couplers, next) ←
    _construct_attribute self_L zz_couplers (self_L - 1) next;
  map ← _calc_map_btwn_site_indices_and_unique_x_fields self_L self_x_fields;
  Ok (mkModel self_L self_x_fields self_z_fields self_zz_couplers map, next).

End Model.

Arguments Num {ScalarState} x.
Arguments Obj {ScalarState} s.
Arguments mkScalar {ScalarState} obj_id obj_state.
Arguments obj_id {ScalarState} s.
Arguments obj_state {ScalarState} s.
Arguments zero {ScalarState}.
Arguments isinstance_Scalar {ScalarState} v.
Arguments L {ScalarState} m.
Arguments x_fields {ScalarState} m.
Arguments z_fields {ScalarState} m.
Arguments zz_couplers {ScalarState} m.
Arguments _map_btwn_site_indices_and_unique_x_fields {ScalarState} m.
Arguments mkModel {ScalarState}.
Arguments candidates {ScalarState}.
Arguments add_candidate {ScalarState}.
Arguments _determine_L {ScalarState}.
Arguments default_param {ScalarState}.

(** ** A concrete class [Scalar] *)

(** Modelled from the spec: the class [sbc.scalar.Scalar], whose source
    [sbc/scalar.py] is missing. The spec asks of it a construction from a
    plain number, which gives a time-independent value, and a comparison of
    two instances by value; a scalar that varies with time is a named
    function of time here. An instance never equals a plain number. *)
Inductive time_fn : Type :=
  | constant (c : number)
  | varying (name : nat).

Definition time_fn_eq (f g : time_fn) : bool :=
  match f, g with
  | constant c, constant d => number_eq c d
  | varying a, varying b => bool_decide (a = b)
  | _, _ => false
  end.

Definition spec_Scalar_eq (s : Scalar time_fn) (other : value time_fn) : bool :=
  match other with
  | Obj t => time_fn_eq (obj_state s) (obj_state t)
  | Num _ => false
  end.

Arguments py_eq {ScalarState} Scalar_eq a b.
Arguments Scalar_new {ScalarState} Scalar_init x next.
Arguments share_body {ScalarState} Scalar_eq ctor_param idx1 idx2 st.
Arguments wrap_step {ScalarState} Scalar_init idx1 st.
Arguments construct_body {ScalarState} Scalar_init Scalar_eq.
Arguments _construct_attribute {ScalarState} Scalar_init Scalar_eq.
Arguments map_body {ScalarState} Scalar_eq.
Arguments _calc_map_btwn_site_indices_and_unique_x_fields {ScalarState} Scalar_eq.
Arguments __init__ {ScalarState} Scalar_init Scalar_eq.

(** ** Loops and list accesses *)

Lemma bind_Ok {A B} (a : A) (f : A → outcome B) : (Ok a ≫= f) = f a.
Proof. reflexivity. Qed.

Lemma bind_inv {A B} (m : outcome A) (f : A → outcome B) (b : B) :
  m ≫= f = Ok b → ∃ a, m = Ok a ∧ f a = Ok b.
Proof. destruct m as [a|e]; simpl; [eauto | discriminate]. Qed.

Lemma getitem_Ok {A} (l : list A) i x : l !! i = Some x → getitem l i = Ok x.
Proof. unfold getitem. now intros ->. Qed.

Lemma getitem_inv {A} (l : list A) i x : getitem l i = Ok x → l !! i = Some x.
Proof. unfold getitem. destruct (l !! i); now inversion 1. Qed.

Lemma setitem_Ok {A} (l : list A) i x :
  i < length l → setitem l i x = Ok (<[i:=x]> l).
Proof. intros H. unfold setitem. now rewrite decide_True. Qed.

Lemma range_le a b : b ≤ a → range a b = [].
Proof. intros H. unfold range. now replace (b - a) with 0 by lia. Qed.

Lemma range_lt a b : a < b → range a b = a :: range (S a) b.
Proof.
  intros H. unfold range. now replace (b - a) with (S (b - S a)) by lia.
Qed.

Lemma range_split a k b : a ≤ k → k ≤ b → range a b = range a k ++ range k b.
Proof.
  intros H1 H2. unfold range.
  replace (b - a) with ((k - a) + (b - k)) by lia.
  rewrite seq_app. now replace (a + (k - a)) with k by lia.
Qed.

Lemma for_each_app {S} (r1 r2 : list nat) (body : nat → S → outcome S) s :
  for_each (r1 ++ r2) body s = (for_each r1 body s ≫= for_each r2 body).
Proof.
  revert s. induction r1 as [|i r1 IH]; intros s; simpl; [reflexivity|].
  destruct (body i s) as [s'|e]; simpl; [apply IH | reflexivity].
Qed.

(** The invariant rule of a [for] loop over [range(a, b)]. *)
Lemma for_each_range {S} (I : nat → S → Prop) (body : nat → S → outcome S)
    a b s :
  a ≤ b →
  I a s →
  (∀ i s, a ≤ i < b → I i s → ∃ s', body i s = Ok s' ∧ I (1 + i) s') →
  ∃ s', for_each (range a b) body s = Ok s' ∧ I b s'.
Proof.
  intros Hab. remember (b - a) as n eqn:Hn.
  revert a s Hab Hn. induction n as [|n IH]; intros a s Hab Hn H0 Hstep.
  - replace b with a by lia. rewrite range_le by lia. simpl. eauto.
  - rewrite range_lt by lia. simpl.
    destruct (Hstep a s) as (s' & -> & Hs'); [lia | assumption |].
    simpl. apply IH; [lia | lia | assumption |].
    intros i t Hi. apply Hstep. lia.
Qed.

(** ** What the loops compute *)

Section Loops.

Context {ScalarState : Type}.
Variable Scalar_init : number → ScalarState.
Variable Scalar_eq : Scalar ScalarState → value ScalarState → bool.

Local Abbreviation value := (value ScalarState).
Local Abbreviation py_eq := (py_eq Scalar_eq).

(** The test [c[j] == c[i]] of the inner loops, [false] out of range. *)
Definition eq_at (c : list value) (j i : nat) : bool :=
  match c !! j, c !! i with
  | Some u, Some v => py_eq u v
  | _, _ => false
  end.

(** The last index [i < k] for which [c[j] == c[i]] holds. *)
Fixpoint last_eq (c : list value) (j k : nat) : option nat :=
  match k with
  | 0 => None
  | S k' => if eq_at c j k' then Some k' else last_eq c j k'
  end.

Lemma last_eq_Some c j k i :
  last_eq c j k = Some i ↔
  i < k ∧ eq_at c j i = true ∧ ∀ i', i < i' < k → eq_at c j i' = false.
Proof.
  induction k as [|k IH]; simpl.
  - split; [discriminate | lia].
  - destruct (eq_at c j k) eqn:E.
    + split.
      * intros [= <-]. split; [lia|]. split; [assumption|]. lia.
      * intros (Hi & He & Hl). f_equal.
        destruct (decide (i = k)) as [|Hne]; [congruence|].
        rewrite Hl in E by lia. discriminate.
    + rewrite IH. split.
      * intros (Hi & He & Hl). split; [lia|]. split; [assumption|].
        intros i' Hi'. destruct (decide (i' = k)) as [->|]; [assumption|].
        apply Hl. lia.
      * intros (Hi & He & Hl).
        assert (i ≠ k) by congruence.
        split; [lia|]. split; [assumption|]. intros i' Hi'. apply Hl. lia.
Qed.

Lemma last_eq_None c j k :
  last_eq c j k = None ↔ ∀ i, i < k → eq_at c j i = false.
Proof.
  induction k as [|k IH]; simpl.
  - split; [lia | reflexivity].
  - destruct (eq_at c j k) eqn:E.
    + split; [discriminate|]. intros H. rewrite H in E by lia. discriminate.
    + rewrite IH. split.
      * intros H i Hi. destruct (decide (i = k)) as [->|]; [assumption|].
        apply H. lia.
      * intros H i Hi. apply H. lia.
Qed.

Lemma eq_at_lookup c j i :
  eq_at c j i = true ↔
  ∃ u v, c !! j = Some u ∧ c !! i = Some v ∧ py_eq u v = true.
Proof.
  unfold eq_at. split.
  - destruct (c !! j) as [u|]; [|discriminate].
    destruct (c !! i) as [v|]; [|discriminate]. eauto.
  - intros (u & v & -> & -> & H). exact H.
Qed.

Lemma eq_at_ge c j i : length c ≤ j → eq_at c j i = false.
Proof.
  intros H. unfold eq_at. now rewrite (lookup_ge_None_2 c j H).
Qed.

(** The inner loop of [_construct_attribute] copies [attribute[idx1]]
    to every later position whose raw entry equals the raw entry at
    [idx1], and raises nothing. *)
Lemma share_loop (c attribute : list value) (flags : list bool) k ak :
  length attribute = length c →
  length c ≤ length flags →
  attribute !! k = Some ak →
  ∃ attribute' flags',
    for_each (range (k + 1) (length c)) (share_body Scalar_eq c k)
      (attribute, flags) = Ok (attribute', flags') ∧
    length attribute' = length c ∧
    length flags' = length flags ∧
    ∀ j, attribute' !! j =
         if bool_decide (k < j) && eq_at c j k then Some ak
         else attribute !! j.
Proof.
  intros Hlen Hfl Hk.
  assert (Hkn : k < length c).
  { rewrite <- Hlen. eapply lookup_lt_Some, Hk. }
  destruct (lookup_lt_is_Some_2 c k Hkn) as [ck Hck].
  destruct (for_each_range
    (λ m st, length st.1 = length c ∧ length st.2 = length flags ∧
       ∀ j, st.1 !! j =
            if bool_decide (k < j < m) && eq_at c j k then Some ak
            else attribute !! j)
    (share_body Scalar_eq c k) (k + 1) (length c) (attribute, flags))
    as ([a' f'] & Hrun & Ha & Hf & Hspec).
  - lia.
  - simpl. split; [assumption|]. split; [reflexivity|].
    intros j. rewrite bool_decide_eq_false_2 by lia. reflexivity.
  - intros i [a f] Hi (Ha & Hf & Hspec). simpl in Ha, Hf, Hspec.
    destruct (lookup_lt_is_Some_2 c i) as [ci Hci]; [lia|].
    unfold share_body.
    rewrite (getitem_Ok _ _ _ Hci), bind_Ok, (getitem_Ok _ _ _ Hck), bind_Ok.
    assert (Hak : a !! k = Some ak).
    { rewrite Hspec, bool_decide_eq_false_2 by lia. assumption. }
    assert (Heq : eq_at c i k = py_eq ci ck).
    { unfold eq_at. now rewrite Hci, Hck. }
    destruct (py_eq ci ck) eqn:E.
    + rewrite (getitem_Ok _ _ _ Hak), bind_Ok.
      rewrite (setitem_Ok a), bind_Ok by lia.
      rewrite (setitem_Ok f), bind_Ok by lia.
      eexists. split; [reflexivity|]. simpl.
      rewrite !length_insert. split; [assumption|]. split; [assumption|].
      intros j. destruct (decide (j = i)) as [->|Hne].
      * rewrite list_lookup_insert_eq by lia.
        rewrite bool_decide_eq_true_2, Heq by lia. reflexivity.
      * rewrite list_lookup_insert_ne by congruence. rewrite Hspec.
        destruct (decide (k < j < i)).
        -- rewrite !bool_decide_eq_true_2 by lia. reflexivity.
        -- rewrite !bool_decide_eq_false_2 by lia. reflexivity.
    + eexists. split; [reflexivity|]. simpl.
      split; [assumption|]. split; [assumption|].
      intros j. rewrite Hspec. destruct (decide (j = i)) as [->|Hne].
      * rewrite Heq, !andb_false_r. reflexivity.
      * destruct (decide (k < j < i)).
        -- rewrite !bool_decide_eq_true_2 by lia. reflexivity.
        -- rewrite !bool_decide_eq_false_2 by lia. reflexivity.
  - exists a', f'. simpl in Ha, Hf, Hspec.
    split; [assumption|]. split; [assumption|]. split; [assumption|].
    intros j. rewrite Hspec.
    destruct (decide (j < length c)).
    + destruct (decide (k < j)).
      * rewrite !bool_decide_eq_true_2 by lia. reflexivity.
      * rewrite !bool_decide_eq_false_2 by lia. reflexivity.
    + rewrite eq_at_ge by lia. rewrite !andb_false_r. reflexivity.
Qed.

(** The wrapping statement leaves a [Scalar] alone and replaces a number
    by a new instance. *)
Lemma wrap_step_spec (attribute : list value) k a1 next :
  attribute !! k = Some a1 →
  ∃ attribute' next' ak,
    wrap_step Scalar_init k (attribute, next) = Ok (attribute', next') ∧
    length attribute' = length attribute ∧
    (∀ j, j ≠ k → attribute' !! j = attribute !! j) ∧
    attribute' !! k = Some ak ∧
    match a1 with
    | Obj s => ak = a1 ∧ next' = next ∧ attribute' = attribute
    | Num x => ak = Scalar_new Scalar_init x next ∧ next' = S next
    end.
Proof.
  intros Hk. pose proof (lookup_lt_Some _ _ _ Hk) as Hlt.
  unfold wrap_step. rewrite (getitem_Ok _ _ _ Hk), bind_Ok.
  destruct a1 as [x|s].
  - rewrite setitem_Ok, bind_Ok by assumption.
    eexists _, _, _. split; [reflexivity|].
    rewrite length_insert. split; [reflexivity|]. split.
    + intros j Hj. now rewrite list_lookup_insert_ne by congruence.
    + split; [now apply list_lookup_insert_eq | split; reflexivity].
  - eexists _, _, _. split; [reflexivity|]. split; [reflexivity|].
    split; [reflexivity|]. split; [exact Hk|]. repeat split.
Qed.

(** What position [j] of the attribute holds when no earlier raw entry
    equals the raw entry [cj] at [j]: a caller's [Scalar] is kept, a
    number has been wrapped in an instance made during this call. *)
Definition owned (lo hi : nat) (cj aj : option value) : Prop :=
  match cj with
  | Some (Obj s) => aj = Some (Obj s)
  | Some (Num x) =>
      ∃ id, lo ≤ id < hi ∧ aj = Some (Scalar_new Scalar_init x id)
  | None => False
  end.

Lemma owned_mono lo hi hi' cj aj :
  hi ≤ hi' → owned lo hi cj aj → owned lo hi' cj aj.
Proof.
  intros Hle. unfold owned. destruct cj as [[x|s]|]; try tauto.
  intros (id & Hid & ->). exists id. split; [lia | reflexivity].
Qed.

Lemma owned_Obj lo hi cj aj : owned lo hi cj aj → ∃ s, aj = Some (Obj s).
Proof.
  unfold owned. destruct cj as [[x|s]|]; [| eauto | tauto].
  intros (id & _ & ->). unfold Scalar_new. eauto.
Qed.

(** The invariant of the outer loop of [_construct_attribute] when it
    reaches [idx1 = k]: positions before [k] are final and hold
    instances of [Scalar]; a later position has been overwritten by the
    last position before [k] whose raw entry equals its own, if any. *)
Definition construct_inv (c : list value) (lo k : nat)
    (attribute : list value) (next : nat) : Prop :=
  length attribute = length c ∧
  lo ≤ next ∧
  (∀ j, j < k → ∃ s, attribute !! j = Some (Obj s)) ∧
  ∀ j, j < length c →
    match last_eq c j (j `min` k) with
    | Some i => attribute !! j = attribute !! i
    | None =>
        if decide (j < k) then owned lo next (c !! j) (attribute !! j)
        else attribute !! j = c !! j
    end.

Lemma construct_body_inv (c attribute : list value) (flags : list bool)
    lo k next :
  k < length c →
  length c ≤ length flags →
  construct_inv c lo k attribute next →
  ∃ attribute' flags' next',
    construct_body Scalar_init Scalar_eq c (length c) k
      (attribute, flags, next) = Ok (attribute', flags', next') ∧
    length flags' = length flags ∧
    construct_inv c lo (1 + k) attribute' next'.
Proof.
  intros Hk Hfl (Hlen & Hlo & Hobj & Hinv).
  destruct (lookup_lt_is_Some_2 attribute k) as [a1 Ha1]; [lia|].
  destruct (wrap_step_spec attribute k a1 next Ha1)
    as (attr1 & next1 & ak & Hwrap & Hlen1 & Hother & Hak & Hcase).
  destruct (share_loop c attr1 flags k ak) as
    (attr2 & flags2 & Hshare & Hlen2 & Hfl2 & Hspec);
    [congruence | assumption | assumption |].
  exists attr2, flags2, next1. unfold construct_body.
  rewrite Hwrap, bind_Ok. simpl. rewrite Hshare, bind_Ok.
  split; [reflexivity|]. split; [assumption|].
  assert (Hnext : next ≤ next1).
  { destruct a1; [destruct Hcase as [_ ->]; lia | destruct Hcase as (_ & -> & _); lia]. }
  assert (Hakobj : ∃ s, ak = Obj s).
  { destruct a1 as [x|s]; [destruct Hcase as [-> _]; unfold Scalar_new; eauto
                          | destruct Hcase as (-> & _); eauto]. }
  assert (Hkeep : ∀ j, j < k → attr2 !! j = attribute !! j).
  { intros j Hj. rewrite Hspec, bool_decide_eq_false_2 by lia.
    apply Hother. lia. }
  assert (Hk2 : attr2 !! k = Some ak).
  { rewrite Hspec, bool_decide_eq_false_2 by lia. assumption. }
  split; [assumption|]. split; [lia|]. split.
  - intros j Hj. destruct (decide (j = k)) as [->|Hne].
    + destruct Hakobj as [s ->]. eauto.
    + rewrite Hkeep by lia. apply Hobj. lia.
  - intros j Hj. specialize (Hinv j Hj).
    destruct (decide (j < k)) as [Hjk|Hjk].
    + rewrite Nat.min_l by lia.
      rewrite Nat.min_l in Hinv by lia.
      rewrite Hkeep by assumption.
      destruct (last_eq c j j) as [i|] eqn:Hlast.
      * apply last_eq_Some in Hlast as (Hi & _). now rewrite Hkeep by lia.
      * rewrite decide_True by lia. eapply owned_mono; eassumption.
    + destruct (decide (j = k)) as [->|Hne].
      * rewrite Nat.min_l by lia.
        rewrite Nat.min_l in Hinv by lia.
        rewrite Hk2.
        destruct (last_eq c k k) as [i|] eqn:Hlast.
        -- apply last_eq_Some in Hlast as (Hi & _).
           rewrite Hkeep by lia. rewrite <- Hinv, Ha1.
           destruct (Hobj i Hi) as [s Hs].
           rewrite <- Hinv, Ha1 in Hs. injection Hs as ->.
           destruct Hcase as [-> _]. reflexivity.
        -- rewrite decide_True by lia. rewrite Ha1 in Hinv.
           unfold owned. rewrite <- Hinv.
           destruct a1 as [x|s].
           ++ destruct Hcase as [-> ->]. exists next. split; [lia | reflexivity].
           ++ destruct Hcase as [-> _]. reflexivity.
      * rewrite Nat.min_r by lia.
        rewrite Nat.min_r in Hinv by lia.
        simpl. rewrite Hspec, bool_decide_eq_true_2 by lia. simpl.
        destruct (eq_at c j k) eqn:E.
        -- now rewrite Hk2.
        -- rewrite Hother by assumption.
           destruct (last_eq c j k) as [i|] eqn:Hlast.
           ++ apply last_eq_Some in Hlast as (Hi & _). now rewrite Hkeep by lia.
           ++ rewrite decide_False by lia. assumption.
Qed.

(** The outer loop run up to [idx1 = k]. *)
Lemma construct_loop_prefix (c : list value) (flags : list bool) lo k :
  length c ≤ length flags →
  k ≤ length c →
  ∃ attribute flags' next,
    for_each (range 0 k) (construct_body Scalar_init Scalar_eq c (length c))
      (c, flags, lo) = Ok (attribute, flags', next) ∧
    length flags' = length flags ∧
    construct_inv c lo k attribute next.
Proof.
  intros Hfl Hk.
  destruct (for_each_range
    (λ k st, length st.1.2 = length flags ∧ construct_inv c lo k st.1.1 st.2)
    (construct_body Scalar_init Scalar_eq c (length c)) 0 k (c, flags, lo))
    as ([[a f] nx] & Hrun & Hf & Hinv).
  - lia.
  - simpl. split; [reflexivity|]. split; [reflexivity|]. split; [lia|].
    split; [lia|]. intros j Hj. rewrite Nat.min_r by lia. simpl.
    destruct (decide (j < 0)); [lia | reflexivity].
  - intros i [[a f] nx] Hi [Hf Hinv]. simpl in Hf, Hinv.
    destruct (construct_body_inv c a f lo i nx) as (a' & f' & nx' & -> & Hf' & Hinv');
      [lia | lia | assumption |].
    eexists. split; [reflexivity|]. simpl. split; [congruence | assumption].
  - exists a, f, nx. auto.
Qed.

(** The attribute that [_construct_attribute] returns for the raw
    entries [c], between the fresh identities [lo] and [next]. *)
Definition normalised (c : list value) (lo : nat) (attribute : list value)
    (next : nat) : Prop :=
  construct_inv c lo (length c) attribute next.

Lemma normalised_length c lo attribute next :
  normalised c lo attribute next → length attribute = length c.
Proof. now intros (H & _). Qed.

Lemma normalised_Obj c lo attribute next j :
  normalised c lo attribute next → j < length c →
  ∃ s, attribute !! j = Some (Obj s).
Proof. intros (_ & _ & H & _). apply H. Qed.

Lemma normalised_shared c lo attribute next j i :
  normalised c lo attribute next → last_eq c j j = Some i →
  attribute !! j = attribute !! i.
Proof.
  intros (_ & _ & _ & H) Hlast.
  destruct (decide (j < length c)) as [Hj|Hj].
  - specialize (H j Hj). rewrite Nat.min_l in H by lia. now rewrite Hlast in H.
  - apply last_eq_Some in Hlast as (_ & He & _).
    rewrite eq_at_ge in He by lia. discriminate.
Qed.

Lemma normalised_owned c lo attribute next j :
  normalised c lo attribute next → j < length c → last_eq c j j = None →
  owned lo next (c !! j) (attribute !! j).
Proof.
  intros (_ & _ & _ & H) Hj Hlast. specialize (H j Hj).
  rewrite Nat.min_l in H by lia. rewrite Hlast in H.
  now rewrite decide_True in H by assumption.
Qed.

Lemma construct_attribute_spec self_L param array_size lo :
  length (default_param param array_size) = array_size →
  array_size ≤ self_L →
  ∃ attribute next,
    _construct_attribute Scalar_init Scalar_eq self_L param array_size lo
      = Ok (attribute, next) ∧
    normalised (default_param param array_size) lo attribute next.
Proof.
  intros Hlen HL. unfold _construct_attribute.
  set (c := default_param param array_size) in *.
  destruct (construct_loop_prefix c (replicate self_L false) lo (length c))
    as (a & f & nx & Hrun & _ & Hinv).
  - rewrite length_replicate. lia.
  - lia.
  - rewrite Hlen in Hrun. rewrite Hrun, bind_Ok. simpl. eauto.
Qed.

(** The inner loop of [_calc_map_btwn_site_indices_and_unique_x_fields]. *)
Lemma map_loop (xs : list value) (result : list nat) k rk :
  length result = length xs →
  result !! k = Some rk →
  ∃ result',
    for_each (range (k + 1) (length xs)) (map_body Scalar_eq xs k) result
      = Ok result' ∧
    length result' = length xs ∧
    ∀ j, result' !! j =
         if bool_decide (k < j) && eq_at xs j k then Some rk
         else result !! j.
Proof.
  intros Hlen Hk.
  assert (Hkn : k < length xs).
  { rewrite <- Hlen. eapply lookup_lt_Some, Hk. }
  destruct (lookup_lt_is_Some_2 xs k Hkn) as [xk Hxk].
  destruct (for_each_range
    (λ m r, length r = length xs ∧
       ∀ j, r !! j =
            if bool_decide (k < j < m) && eq_at xs j k then Some rk
            else result !! j)
    (map_body Scalar_eq xs k) (k + 1) (length xs) result)
    as (r' & Hrun & Hr & Hspec).
  - lia.
  - split; [assumption|].
    intros j. rewrite bool_decide_eq_false_2 by lia. reflexivity.
  - intros i r Hi (Hr & Hspec).
    destruct (lookup_lt_is_Some_2 xs i) as [xi Hxi]; [lia|].
    unfold map_body.
    rewrite (getitem_Ok _ _ _ Hxi), bind_Ok, (getitem_Ok _ _ _ Hxk), bind_Ok.
    assert (Hrk : r !! k = Some rk).
    { rewrite Hspec, bool_decide_eq_false_2 by lia. assumption. }
    assert (Heq : eq_at xs i k = py_eq xi xk).
    { unfold eq_at. now rewrite Hxi, Hxk. }
    destruct (py_eq xi xk) eqn:E.
    + rewrite (getitem_Ok _ _ _ Hrk), bind_Ok.
      rewrite setitem_Ok by lia.
      eexists. split; [reflexivity|].
      rewrite length_insert. split; [assumption|].
      intros j. destruct (decide (j = i)) as [->|Hne].
      * rewrite list_lookup_insert_eq by lia.
        rewrite bool_decide_eq_true_2, Heq by lia. reflexivity.
      * rewrite list_lookup_insert_ne by congruence. rewrite Hspec.
        destruct (decide (k < j < i)).
        -- rewrite !bool_decide_eq_true_2 by lia. reflexivity.
        -- rewrite !bool_decide_eq_false_2 by lia. reflexivity.
    + eexists. split; [reflexivity|]. split; [assumption|].
      intros j. rewrite Hspec. destruct (decide (j = i)) as [->|Hne].
      * rewrite Heq, !andb_false_r. reflexivity.
      * destruct (decide (k < j < i)).
        -- rewrite !bool_decide_eq_true_2 by lia. reflexivity.
        -- rewrite !bool_decide_eq_false_2 by lia. reflexivity.
  - exists r'. split; [assumption|]. split; [assumption|].
    intros j. rewrite Hspec.
    destruct (decide (j < length xs)).
    + destruct (decide (k < j)).
      * rewrite !bool_decide_eq_true_2 by lia. reflexivity.
      * rewrite !bool_decide_eq_false_2 by lia. reflexivity.
    + rewrite eq_at_ge by lia. rewrite !andb_false_r. reflexivity.
Qed.

(** The table when the outer loop reaches [idx1 = k]. *)
Definition map_inv (xs : list value) (k : nat) (result : list nat) : Prop :=
  length result = length xs ∧
  ∀ j, j < length xs →
    match last_eq xs j (j `min` k) with
    | Some i => result !! j = result !! i
    | None => result !! j = Some j
    end.

Lemma calc_map_spec (xs : list value) :
  ∃ result,
    _calc_map_btwn_site_indices_and_unique_x_fields Scalar_eq (length xs) xs
      = Ok result ∧
    map_inv xs (length xs) result.
Proof.
  unfold _calc_map_btwn_site_indices_and_unique_x_fields.
  apply (for_each_range (map_inv xs)); [lia | |].
  - split; [unfold range; rewrite length_seq; lia|].
    intros j Hj. rewrite Nat.min_r by lia. simpl.
    unfold range. rewrite lookup_seq_lt by lia. reflexivity.
  - intros k r Hk (Hr & Hinv).
    destruct (lookup_lt_is_Some_2 r k) as [rk Hrk]; [lia|].
    destruct (map_loop xs r k rk Hr Hrk) as (r' & Hrun & Hr' & Hspec).
    exists r'. split; [assumption|]. split; [assumption|].
    assert (Hkeep : ∀ j, j ≤ k → r' !! j = r !! j).
    { intros j Hj. now rewrite Hspec, bool_decide_eq_false_2 by lia. }
    intros j Hj. specialize (Hinv j Hj).
    destruct (decide (j ≤ k)) as [Hjk|Hjk].
    + rewrite Nat.min_l by lia. rewrite Nat.min_l in Hinv by lia.
      rewrite Hkeep by assumption.
      destruct (last_eq xs j j) as [i|] eqn:Hlast; [|assumption].
      apply last_eq_Some in Hlast as (Hi & _). now rewrite Hkeep by lia.
    + rewrite Nat.min_r by lia. rewrite Nat.min_r in Hinv by lia.
      simpl. rewrite Hspec, bool_decide_eq_true_2 by lia. simpl.
      destruct (eq_at xs j k) eqn:E.
      * now rewrite Hkeep by lia.
      * destruct (last_eq xs j k) as [i|] eqn:Hlast; [|assumption].
        apply last_eq_Some in Hlast as (Hi & _). now rewrite Hkeep by lia.
Qed.

End Loops.

(** ** The number of sites *)

Section Length.

Context {ScalarState : Type}.
Local Abbreviation value := (value ScalarState).

(** The chain length that one parameter implies: none when the parameter
    is [None] or empty, else its length, plus one for the couplers. *)
Definition implied (param : option (list value)) (extra : nat) : option nat :=
  match param with
  | None => None
  | Some l => if bool_decide (length l ≠ 0) then Some (length l + extra) else None
  end.

(** [n] is the chain length implied by one of the three parameters. *)
Definition implied_by (z x zz : option (list value)) (n : nat) : Prop :=
  implied z 0 = Some n ∨ implied x 0 = Some n ∨ implied zz 1 = Some n.

Lemma elem_of_add_candidate param extra (X : gset nat) n :
  n ∈ add_candidate param extra X ↔ n ∈ X ∨ implied param extra = Some n.
Proof.
  unfold add_candidate, implied. destruct param as [l|].
  - destruct (bool_decide (length l ≠ 0)).
    + rewrite elem_of_union, elem_of_singleton.
      split; (intros [H|H]; [now left | right; congruence]).
    + split; [now left | now intros [H|H]].
  - split; [now left | now intros [H|H]].
Qed.

Lemma elem_of_candidates (z x zz : option (list value)) n :
  n ∈ candidates z x zz ↔ implied_by z x zz n.
Proof.
  unfold candidates, implied_by. rewrite !elem_of_add_candidate.
  rewrite elem_of_empty. tauto.
Qed.

Lemma implied_pos param extra n : implied param extra = Some n → 1 ≤ n.
Proof.
  unfold implied. destruct param as [l|]; [|discriminate].
  case_bool_decide; [|discriminate]. intros [= <-]. lia.
Qed.

(** The three outcomes of [_determine_L]. *)
Lemma determine_L_cases (z x zz : option (list value)) :
  (candidates z x zz = ∅ ∧ _determine_L z x zz = Ok 1) ∨
  (∃ l, candidates z x zz = {[ l ]} ∧ _determine_L z x zz = Ok l) ∨
  (1 < size (candidates z x zz) ∧
   _determine_L z x zz = Raise incompatible_dimensions).
Proof.
  unfold _determine_L. set (X := candidates z x zz).
  destruct (decide (size X = 0)) as [H0|H0].
  - left. rewrite bool_decide_eq_true_2 by assumption.
    split; [|reflexivity]. now apply leibniz_equiv, size_empty_iff.
  - rewrite bool_decide_eq_false_2 by assumption. right.
    destruct (decide (size X = 1)) as [H1|H1].
    + left. rewrite bool_decide_eq_false_2 by tauto.
      apply size_1_elem_of in H1 as [l Hl]. apply leibniz_equiv in Hl.
      exists l. split; [assumption|].
      unfold set_pop. now rewrite Hl, elements_singleton.
    + right. rewrite bool_decide_eq_true_2 by assumption.
      split; [lia | reflexivity].
Qed.

Lemma size_gt_1 (X : gset nat) :
  1 < size X ↔ ∃ a b, a ≠ b ∧ a ∈ X ∧ b ∈ X.
Proof.
  split.
  - intros H. destruct (size_pos_elem_of X) as [a Ha]; [lia|].
    destruct (decide (X = {[ a ]})) as [E|E].
    + rewrite E, size_singleton in H. lia.
    + destruct (set_choose_or_empty (X ∖ {[ a ]})) as [[b Hb]|Hemp].
      * exists a, b. apply elem_of_difference in Hb as [Hb Hne].
        rewrite elem_of_singleton in Hne. auto.
      * exfalso. apply E. apply leibniz_equiv. intros b.
        rewrite elem_of_singleton. split; [|now intros ->].
        intros Hb. destruct (decide (b = a)) as [|Hne]; [assumption|].
        exfalso. apply (not_elem_of_empty (C := gset nat) b).
        rewrite <- Hemp. apply elem_of_difference.
        rewrite elem_of_singleton. auto.
  - intros (a & b & Hne & Ha & Hb).
    assert (Hsub : ({[ a ]} ∪ {[ b ]} : gset nat) ⊆ X).
    { intros c. rewrite elem_of_union, !elem_of_singleton.
      now intros [->| ->]. }
    apply subseteq_size in Hsub.
    rewrite size_union, !size_singleton in Hsub; [lia|].
    intros c. rewrite !elem_of_singleton. congruence.
Qed.

(** More than one candidate: two parameters imply different lengths. *)
Lemma candidates_conflict (z x zz : option (list value)) :
  1 < size (candidates z x zz) ↔
  ∃ a b, a ≠ b ∧ implied_by z x zz a ∧ implied_by z x zz b.
Proof.
  rewrite size_gt_1. now setoid_rewrite elem_of_candidates.
Qed.

Lemma default_param_absent param extra n :
  implied param extra = None → default_param param n = replicate n zero.
Proof.
  unfold implied, default_param. destruct param as [l|].
  - case_bool_decide as Hl; [discriminate|]. intros _.
    rewrite bool_decide_eq_true_2; [reflexivity|]. lia.
  - intros _. now case_bool_decide.
Qed.

Lemma default_param_present param extra n l :
  implied param extra = Some l →
  ∃ c, param = Some c ∧ default_param param n = c ∧ length c + extra = l.
Proof.
  unfold implied, default_param. destruct param as [c|]; [|discriminate].
  case_bool_decide as Hl; [|discriminate]. intros [= <-].
  exists c. rewrite bool_decide_eq_false_2 by assumption. auto.
Qed.

(** Once [_determine_L] has returned, each parameter, after the
    defaulting statements, has the size its attribute is built with. *)
Lemma determine_L_sizes (z x zz : option (list value)) l :
  _determine_L z x zz = Ok l →
  1 ≤ l ∧
  length (default_param z l) = l ∧
  length (default_param x l) = l ∧
  length (default_param zz (l - 1)) = l - 1.
Proof.
  intros HL.
  assert (Hall : ∀ n, implied_by z x zz n → n = l).
  { intros n Hn. apply elem_of_candidates in Hn.
    destruct (determine_L_cases z x zz) as [[E _]|[(l' & E & HL')|[_ HL']]].
    - rewrite E in Hn. set_solver.
    - rewrite E in Hn. rewrite HL in HL'. injection HL' as ->. set_solver.
    - rewrite HL in HL'. discriminate. }
  assert (Hsize : ∀ param extra n,
    (∀ k, implied param extra = Some k → k = n + extra) →
    length (default_param param n) = n).
  { intros param extra n H. destruct (implied param extra) as [k|] eqn:E.
    - destruct (default_param_present param extra n k E) as (c & _ & Hd & Hc).
      rewrite Hd. specialize (H k eq_refl). lia.
    - rewrite (default_param_absent param extra n E). apply length_replicate. }
  assert (Hpos : 1 ≤ l).
  { destruct (determine_L_cases z x zz) as [[_ HL']|[(l' & E & HL')|[_ HL']]];
      rewrite HL in HL'; [injection HL' as ->; lia | | discriminate].
    injection HL' as ->.
    assert (Hin : implied_by z x zz l').
    { apply elem_of_candidates. rewrite E. now apply elem_of_singleton. }
    destruct Hin as [H|[H|H]]; eapply implied_pos; eassumption. }
  split; [assumption|]. split; [|split].
  - apply (Hsize z 0). intros k Hk. rewrite (Hall k); [lia|]. now left.
  - apply (Hsize x 0). intros k Hk. rewrite (Hall k); [lia|]. right. now left.
  - apply (Hsize zz 1). intros k Hk. rewrite (Hall k); [lia|]. right. now right.
Qed.

End Length.

(** ** The constructor *)

Section Constructor.

Context {ScalarState : Type}.
Variable Scalar_init : number → ScalarState.
Variable Scalar_eq : Scalar ScalarState → value ScalarState → bool.

Local Abbreviation value := (value ScalarState).
Local Abbreviation py_eq := (py_eq Scalar_eq).
Local Abbreviation normalised := (normalised Scalar_init Scalar_eq).

(** What an instance of [Model] is made of, for the parameters
    [z], [x], [zz] and the fresh identities from [lo] to [next]: the
    length returned by [_determine_L], the three attributes built in the
    order of the assignments of [__init__], and the table. *)
Definition constructed (z x zz : option (list value)) (lo : nat)
    (m : Model ScalarState) (next : nat) : Prop :=
  _determine_L z x zz = Ok (L m) ∧
  ∃ n1 n2,
    normalised (default_param x (L m)) lo (x_fields m) n1 ∧
    normalised (default_param z (L m)) n1 (z_fields m) n2 ∧
    normalised (default_param zz (L m - 1)) n2 (zz_couplers m) next ∧
    map_inv Scalar_eq (x_fields m) (L m)
      (_map_btwn_site_indices_and_unique_x_fields m).

Lemma init_Ok z x zz lo l :
  _determine_L z x zz = Ok l →
  ∃ m next, __init__ Scalar_init Scalar_eq z x zz lo = Ok (m, next) ∧ constructed z x zz lo m next.
Proof.
  intros HL. destruct (determine_L_sizes z x zz l HL) as (Hl & Hz & Hx & Hzz).
  unfold __init__. rewrite HL, bind_Ok.
  destruct (construct_attribute_spec Scalar_init Scalar_eq l x l lo)
    as (ax & n1 & -> & Hnx); [assumption | lia |].
  rewrite bind_Ok. simpl.
  destruct (construct_attribute_spec Scalar_init Scalar_eq l z l n1)
    as (az & n2 & -> & Hnz); [assumption | lia |].
  rewrite bind_Ok. simpl.
  destruct (construct_attribute_spec Scalar_init Scalar_eq l zz (l - 1) n2)
    as (azz & n3 & -> & Hnzz); [assumption | lia |].
  rewrite bind_Ok. simpl.
  assert (Hlx : length ax = l).
  { rewrite (normalised_length _ _ _ _ _ _ Hnx). assumption. }
  destruct (calc_map_spec Scalar_eq ax) as (mp & Hmp & Hinv).
  rewrite Hlx in Hmp, Hinv. rewrite Hmp, bind_Ok.
  eexists _, _. split; [reflexivity|].
  split; [exact HL|]. simpl. exists n1, n2. auto.
Qed.

Lemma init_Raise z x zz lo e :
  _determine_L z x zz = Raise e → __init__ Scalar_init Scalar_eq z x zz lo = Raise e.
Proof. intros HL. unfold __init__. now rewrite HL. Qed.

Lemma init_inv z x zz lo m next :
  __init__ Scalar_init Scalar_eq z x zz lo = Ok (m, next) → constructed z x zz lo m next.
Proof.
  intros Hinit. destruct (_determine_L z x zz) as [l|e] eqn:HL.
  - destruct (init_Ok z x zz lo l HL) as (m' & next' & Hinit' & Hc).
    rewrite Hinit in Hinit'. now injection Hinit' as <- <-.
  - rewrite (init_Raise z x zz lo e HL) in Hinit. discriminate.
Qed.

End Constructor.

(** ** Properties of the constructed instance *)

Section Properties.

Context {ScalarState : Type}.
Variable Scalar_init : number → ScalarState.
Variable Scalar_eq : Scalar ScalarState → value ScalarState → bool.

Local Abbreviation value := (value ScalarState).
Local Abbreviation py_eq := (py_eq Scalar_eq).
Local Abbreviation normalised := (normalised Scalar_init Scalar_eq).

(** An array of [n] instances of [Scalar], each with the state of
    [Scalar(0)]. *)
Definition zero_Scalars (n : nat) (attribute : list value) : Prop :=
  length attribute = n ∧
  Forall (λ v, ∃ id, v = Scalar_new Scalar_init (PyInt 0) id) attribute.

Lemma normalised_Forall_Scalar c lo attribute next :
  normalised c lo attribute next →
  Forall (λ v, isinstance_Scalar v = true) attribute.
Proof.
  intros Hn. apply Forall_lookup. intros j v Hv.
  destruct (normalised_Obj _ _ c lo attribute next j Hn) as [s Hs].
  - rewrite <- (normalised_length _ _ _ _ _ _ Hn). eapply lookup_lt_Some, Hv.
  - rewrite Hs in Hv. now injection Hv as <-.
Qed.

Lemma normalised_zeros n lo attribute next :
  normalised (replicate n zero) lo attribute next →
  zero_Scalars n attribute.
Proof.
  intros Hn. pose proof (normalised_length _ _ _ _ _ _ Hn) as Hlen.
  rewrite length_replicate in Hlen. split; [assumption|].
  apply Forall_lookup. intros j v Hv.
  assert (Hj : j < n) by (rewrite <- Hlen; eapply lookup_lt_Some, Hv).
  revert v Hv. induction j as [|j IH]; intros v Hv.
  - assert (Ho := normalised_owned _ _ _ _ _ _ 0 Hn).
    rewrite length_replicate in Ho. specialize (Ho Hj eq_refl).
    unfold owned in Ho. rewrite lookup_replicate_2 in Ho by assumption.
    simpl in Ho. destruct Ho as (id & _ & Ho). rewrite Ho in Hv.
    injection Hv as <-. eauto.
  - apply IH; [lia|].
    rewrite <- (normalised_shared _ _ _ _ _ _ (S j) j Hn); [assumption|].
    simpl. unfold eq_at.
    rewrite !lookup_replicate_2 by lia. reflexivity.
Qed.

(** C8. Every element of the three arrays of a constructed instance is an
    instance of [Scalar], whatever mix of plain numbers, instances of
    [Scalar] and absent parameters the caller passed. *)
Theorem attributes_hold_Scalars z x zz lo m next :
  __init__ Scalar_init Scalar_eq z x zz lo = Ok (m, next) →
  Forall (λ v, isinstance_Scalar v = true) (z_fields m) ∧
  Forall (λ v, isinstance_Scalar v = true) (x_fields m) ∧
  Forall (λ v, isinstance_Scalar v = true) (zz_couplers m).
Proof.
  intros Hinit.
  destruct (init_inv _ _ _ _ _ _ _ _ Hinit) as (_ & n1 & n2 & Hx & Hz & Hzz & _).
  repeat split; eapply normalised_Forall_Scalar; eassumption.
Qed.

(** For parameters that are lists: the constructor raises exactly when
    two of the parameters that are present and not empty imply different
    chain lengths; what it raises then is the [IndexError] of
    [_determine_L], on incompatible dimensions. For all other lists it
    returns an instance. *)
Theorem init_raises_iff_conflict z x zz lo :
  ((∃ e, __init__ Scalar_init Scalar_eq z x zz lo = Raise e) ↔
   (∃ a b, a ≠ b ∧ implied_by z x zz a ∧ implied_by z x zz b)) ∧
  (∀ e, __init__ Scalar_init Scalar_eq z x zz lo = Raise e ↔
        e = incompatible_dimensions ∧ _determine_L z x zz = Raise e) ∧
  ((∃ m next, __init__ Scalar_init Scalar_eq z x zz lo = Ok (m, next)) ↔
   ¬ (∃ a b, a ≠ b ∧ implied_by z x zz a ∧ implied_by z x zz b)).
Proof.
  rewrite <- candidates_conflict.
  destruct (determine_L_cases z x zz) as [[E HL]|[(l & E & HL)|[Hs HL]]].
  - destruct (init_Ok Scalar_init Scalar_eq z x zz lo 1 HL) as (m & nx & Hi & _).
    rewrite E, size_empty. split; [|split].
    + split; [intros [e He]; rewrite Hi in He; discriminate | lia].
    + intros e. rewrite Hi, HL. split; [discriminate | now intros [_ ?]].
    + split; [lia | eauto].
  - destruct (init_Ok Scalar_init Scalar_eq z x zz lo l HL) as (m & nx & Hi & _).
    rewrite E, size_singleton. split; [|split].
    + split; [intros [e He]; rewrite Hi in He; discriminate | lia].
    + intros e. rewrite Hi, HL. split; [discriminate | now intros [_ ?]].
    + split; [lia | eauto].
  - pose proof (init_Raise Scalar_init Scalar_eq z x zz lo _ HL) as Hi.
    split; [|split].
    + split; [auto | eauto].
    + intros e. rewrite Hi, HL. split; [now intros [= <-] | now intros [-> _]].
    + split; [intros (m & nx & Hm); rewrite Hi in Hm; discriminate | tauto].
Qed.

Lemma absent_zero_Scalars param extra n lo attribute next :
  implied param extra = None →
  normalised (default_param param n) lo attribute next →
  zero_Scalars n attribute.
Proof.
  intros Hnone. rewrite (default_param_absent param extra n Hnone).
  apply normalised_zeros.
Qed.

(** C2. Let the parameters that are present and not empty imply at most
    one chain length. The constructor returns an instance. If no
    parameter implies a length, [L] is 1 and the fields are one
    [Scalar(0)] each, the couplers none. Otherwise [L] is the implied
    length: [len(z_fields)], [len(x_fields)] or [len(zz_couplers) + 1].
    A parameter that is absent or empty gives an array of [Scalar(0)], of
    size [L] for the fields and [L - 1] for the couplers. *)
Theorem chain_length_and_defaults z x zz lo :
  (∀ a b, implied_by z x zz a → implied_by z x zz b → a = b) →
  ∃ m next,
    __init__ Scalar_init Scalar_eq z x zz lo = Ok (m, next) ∧
    ((∀ n, ¬ implied_by z x zz n) →
       L m = 1 ∧ zero_Scalars 1 (z_fields m) ∧ zero_Scalars 1 (x_fields m) ∧
       zero_Scalars 0 (zz_couplers m)) ∧
    (∀ n, implied_by z x zz n → L m = n) ∧
    (implied z 0 = None → zero_Scalars (L m) (z_fields m)) ∧
    (implied x 0 = None → zero_Scalars (L m) (x_fields m)) ∧
    (implied zz 1 = None → zero_Scalars (L m - 1) (zz_couplers m)) ∧
    length (z_fields m) = L m ∧
    length (x_fields m) = L m ∧
    length (zz_couplers m) = L m - 1.
Proof.
  intros Huniq.
  assert (∃ l, _determine_L z x zz = Ok l ∧
               ((∀ n, ¬ implied_by z x zz n) → l = 1) ∧
               (∀ n, implied_by z x zz n → l = n)) as (l & HL & Hnone & Hsome).
  { destruct (determine_L_cases z x zz) as [[E HL]|[(l & E & HL)|[Hs _]]].
    - exists 1. split; [assumption|]. split; [reflexivity|].
      intros n Hn. apply elem_of_candidates in Hn. rewrite E in Hn.
      now apply not_elem_of_empty in Hn.
    - exists l. split; [assumption|].
      assert (Hl : implied_by z x zz l).
      { apply elem_of_candidates. rewrite E. now apply elem_of_singleton. }
      split; [intros Hno; now destruct (Hno l) | auto].
    - apply candidates_conflict in Hs as (a & b & Hne & Ha & Hb).
      destruct Hne. auto. }
  destruct (init_Ok Scalar_init Scalar_eq z x zz lo l HL)
    as (m & next & Hinit & HL' & n1 & n2 & Hx & Hz & Hzz & _).
  assert (Hm : L m = l) by congruence.
  destruct (determine_L_sizes z x zz l HL) as (_ & Hlz & Hlx & Hlzz).
  rewrite Hm in Hx, Hz, Hzz.
  exists m, next. split; [assumption|]. rewrite Hm.
  assert (Hz0 : implied z 0 = None → zero_Scalars l (z_fields m))
    by (intros H; eapply absent_zero_Scalars; eassumption).
  assert (Hx0 : implied x 0 = None → zero_Scalars l (x_fields m))
    by (intros H; eapply absent_zero_Scalars; eassumption).
  assert (Hzz0 : implied zz 1 = None → zero_Scalars (l - 1) (zz_couplers m))
    by (intros H; eapply absent_zero_Scalars; eassumption).
  split.
  { intros Hno. specialize (Hnone Hno). subst l.
    assert (Hnot : ∀ (p : option (list value)) e,
              (∀ n, implied p e = Some n → implied_by z x zz n) →
              implied p e = None).
    { intros p e H. destruct (implied p e) as [n|] eqn:E; [|reflexivity].
      destruct (Hno n). auto. }
    split; [reflexivity|]. split; [|split].
    - apply Hz0, Hnot. intros n Hn. now left.
    - apply Hx0, Hnot. intros n Hn. right. now left.
    - apply Hzz0, Hnot. intros n Hn. right. now right. }
  split; [assumption|]. split; [assumption|]. split; [assumption|].
  split; [assumption|].
  rewrite (normalised_length _ _ _ _ _ _ Hz), (normalised_length _ _ _ _ _ _ Hx),
    (normalised_length _ _ _ _ _ _ Hzz). auto.
Qed.

(** *** The table of equal transverse fields *)

(** The recurrence the two loops of
    [_calc_map_btwn_site_indices_and_unique_x_fields] leave behind: site
    [j] has the entry of the last earlier site whose field it equals, or
    its own index when there is none. *)
Lemma map_recurrence z x zz lo m next j :
  __init__ Scalar_init Scalar_eq z x zz lo = Ok (m, next) →
  j < L m →
  length (x_fields m) = L m ∧
  length (_map_btwn_site_indices_and_unique_x_fields m) = L m ∧
  _map_btwn_site_indices_and_unique_x_fields m !! j =
    match last_eq Scalar_eq (x_fields m) j j with
    | Some i => _map_btwn_site_indices_and_unique_x_fields m !! i
    | None => Some j
    end.
Proof.
  intros Hinit Hj.
  destruct (init_inv _ _ _ _ _ _ _ _ Hinit)
    as (HL & n1 & n2 & Hx & _ & _ & Hlen & Hmap).
  destruct (determine_L_sizes _ _ _ _ HL) as (_ & _ & Hlx & _).
  pose proof (normalised_length _ _ _ _ _ _ Hx) as Hlx'. rewrite Hlx in Hlx'.
  split; [assumption|]. split; [congruence|].
  specialize (Hmap j). rewrite Hlx' in Hmap. specialize (Hmap Hj).
  rewrite Nat.min_l in Hmap by lia.
  destruct (last_eq Scalar_eq (x_fields m) j j); assumption.
Qed.

(** C9. Whatever [Scalar.__eq__] does, transitive or not, the table [t]
    of a constructed instance has [0 <= t[r] <= r] and [t[t[r]] = t[r]]
    at every site [r]. *)
Theorem map_below_and_idempotent z x zz lo m next r :
  __init__ Scalar_init Scalar_eq z x zz lo = Ok (m, next) →
  r < L m →
  ∃ i, _map_btwn_site_indices_and_unique_x_fields m !! r = Some i ∧
       0 ≤ i ≤ r ∧
       _map_btwn_site_indices_and_unique_x_fields m !! i = Some i.
Proof.
  intros Hinit. induction r as [r IH] using lt_wf_ind. intros Hr.
  destruct (map_recurrence z x zz lo m next r Hinit Hr) as (_ & _ & Hrec).
  destruct (last_eq Scalar_eq (x_fields m) r r) as [p|] eqn:Hlast.
  - apply last_eq_Some in Hlast as (Hp & _).
    destruct (IH p Hp) as (i & Hi & Hle & Hfix); [lia|].
    exists i. rewrite Hrec. split; [assumption|]. split; [lia | assumption].
  - exists r. split; [assumption|]. split; [lia | assumption].
Qed.

(** [==] is reflexive, symmetric, transitive on the entries of a list. *)
Definition eq_reflexive_on (l : list value) : Prop :=
  ∀ u, u ∈ l → py_eq u u = true.

Definition eq_symmetric_on (l : list value) : Prop :=
  ∀ u v, u ∈ l → v ∈ l → py_eq u v = true → py_eq v u = true.

Definition eq_transitive_on (l : list value) : Prop :=
  ∀ u v w, u ∈ l → v ∈ l → w ∈ l →
    py_eq u v = true → py_eq v w = true → py_eq u w = true.

(** C4. When [==] is an equality by value on the normalised transverse
    fields (reflexive, symmetric and transitive), entry [r] of the table
    that the scan over the pairs [(idx1, idx2)] produces is the smallest
    site index whose normalised x-field equals that of site [r]. *)
Theorem map_is_smallest_equal_site z x zz lo m next r :
  __init__ Scalar_init Scalar_eq z x zz lo = Ok (m, next) →
  eq_reflexive_on (x_fields m) →
  eq_symmetric_on (x_fields m) →
  eq_transitive_on (x_fields m) →
  r < L m →
  ∃ i xr xi,
    _map_btwn_site_indices_and_unique_x_fields m !! r = Some i ∧
    x_fields m !! r = Some xr ∧
    x_fields m !! i = Some xi ∧
    py_eq xr xi = true ∧
    ∀ i' xi', i' < i → x_fields m !! i' = Some xi' → py_eq xr xi' = false.
Proof.
  intros Hinit Hrefl Hsym Htrans.
  induction r as [r IH] using lt_wf_ind. intros Hr.
  destruct (map_recurrence z x zz lo m next r Hinit Hr) as (Hlx & _ & Hrec).
  destruct (lookup_lt_is_Some_2 (x_fields m) r) as [xr Hxr]; [lia|].
  assert (Hinr : xr ∈ x_fields m) by (eapply list_elem_of_lookup_2, Hxr).
  destruct (last_eq Scalar_eq (x_fields m) r r) as [p|] eqn:Hlast.
  - apply last_eq_Some in Hlast as (Hp & Hrp & _).
    apply eq_at_lookup in Hrp as (xr' & xp & Hxr' & Hxp & Hrp).
    rewrite Hxr in Hxr'. injection Hxr' as <-.
    assert (Hinp : xp ∈ x_fields m) by (eapply list_elem_of_lookup_2, Hxp).
    destruct (IH p Hp) as (i & xp' & xi & Hi & Hxp' & Hxi & Hpi & Hmin); [lia|].
    rewrite Hxp in Hxp'. injection Hxp' as <-.
    assert (Hini : xi ∈ x_fields m) by (eapply list_elem_of_lookup_2, Hxi).
    exists i, xr, xi. rewrite Hrec.
    split; [assumption|]. split; [assumption|]. split; [assumption|].
    split; [eapply (Htrans xr xp xi); assumption|].
    intros i' xi' Hi' Hxi'.
    assert (Hini' : xi' ∈ x_fields m) by (eapply list_elem_of_lookup_2, Hxi').
    destruct (py_eq xr xi') eqn:E; [|reflexivity].
    rewrite <- (Hmin i' xi' Hi' Hxi'). symmetry.
    apply (Htrans xp xr xi'); auto.
  - exists r, xr, xr. split; [assumption|]. split; [assumption|].
    split; [assumption|]. split; [auto|].
    intros i' xi' Hi' Hxi'.
    pose proof (proj1 (last_eq_None _ _ _ _) Hlast i' Hi') as Hne.
    unfold eq_at in Hne. now rewrite Hxr, Hxi' in Hne.
Qed.

(** *** Sharing *)

Lemma owned_weaken lo lo' hi hi' (cj aj : option value) :
  lo' ≤ lo → hi ≤ hi' →
  owned Scalar_init lo hi cj aj → owned Scalar_init lo' hi' cj aj.
Proof.
  intros Hlo Hhi. unfold owned. destruct cj as [[x|s]|]; try tauto.
  intros (id & Hid & ->). exists id. split; [lia | reflexivity].
Qed.

Lemma default_param_Some (c : list value) n :
  c ≠ [] → default_param (Some c) n = c.
Proof.
  intros Hc. unfold default_param. rewrite bool_decide_eq_false_2; [reflexivity|].
  destruct c; [congruence | discriminate].
Qed.

(** The three parameters, each with the attribute built from it. *)
Definition arrays (z x zz : option (list value)) (m : Model ScalarState)
    : list (option (list value) * list value) :=
  [(z, z_fields m); (x, x_fields m); (zz, zz_couplers m)].

(** Each attribute is the result of [_construct_attribute] on its own
    parameter, with fresh identities taken between [lo] and [next]. *)
Lemma arrays_normalised z x zz lo m next param attribute :
  __init__ Scalar_init Scalar_eq z x zz lo = Ok (m, next) →
  (param, attribute) ∈ arrays z x zz m →
  ∃ n lo' hi',
    lo ≤ lo' ∧ hi' ≤ next ∧ n ≤ L m ∧
    length (default_param param n) = n ∧
    normalised (default_param param n) lo' attribute hi'.
Proof.
  intros Hinit Hin.
  destruct (init_inv _ _ _ _ _ _ _ _ Hinit)
    as (HL & n1 & n2 & Hx & Hz & Hzz & _).
  destruct (determine_L_sizes _ _ _ _ HL) as (_ & Hlz & Hlx & Hlzz).
  assert (lo ≤ n1) by apply Hx. assert (n1 ≤ n2) by apply Hz.
  assert (n2 ≤ next) by apply Hzz.
  unfold arrays in Hin. rewrite !elem_of_cons, elem_of_nil in Hin.
  destruct Hin as [[= -> ->]|[[= -> ->]|[[= -> ->]|[]]]].
  - exists (L m), n1, n2. do 3 (split; [lia|]). now split.
  - exists (L m), lo, n1. do 3 (split; [lia|]). now split.
  - exists (L m - 1), n2, next. do 3 (split; [lia|]). now split.
Qed.

(** With a symmetric and transitive [==], a position shares the object
    of every earlier position whose raw entry equals its own. *)
Lemma normalised_shares c lo attribute next :
  normalised c lo attribute next →
  eq_symmetric_on c → eq_transitive_on c →
  ∀ j i u v, i < j → c !! i = Some u → c !! j = Some v →
    py_eq v u = true → attribute !! j = attribute !! i.
Proof.
  intros Hn Hsym Htrans j.
  induction j as [j IH] using lt_wf_ind. intros i u v Hij Hu Hv Hvu.
  assert (Hinu : u ∈ c) by (eapply list_elem_of_lookup_2, Hu).
  assert (Hinv : v ∈ c) by (eapply list_elem_of_lookup_2, Hv).
  assert (Hji : eq_at Scalar_eq c j i = true) by (apply eq_at_lookup; eauto).
  destruct (last_eq Scalar_eq c j j) as [p|] eqn:Hlast.
  - rewrite (normalised_shared _ _ _ _ _ _ j p Hn Hlast).
    apply last_eq_Some in Hlast as (Hp & Hjp & Hlater).
    destruct (decide (p = i)) as [->|Hne]; [reflexivity|].
    assert (Hip : i < p).
    { destruct (decide (i < p)) as [|Hge]; [assumption|].
      rewrite Hlater in Hji by lia. discriminate. }
    apply eq_at_lookup in Hjp as (v' & w & Hv' & Hw & Hvw).
    rewrite Hv in Hv'. injection Hv' as <-.
    assert (Hinw : w ∈ c) by (eapply list_elem_of_lookup_2, Hw).
    apply (IH p Hp i u w Hip Hu Hw).
    apply (Htrans w v u); auto.
  - rewrite (proj1 (last_eq_None _ _ _ _) Hlast i Hij) in Hji. discriminate.
Qed.

(** A position whose raw entry equals no earlier raw entry holds its own
    object. *)
Lemma normalised_first c lo attribute next i u :
  normalised c lo attribute next →
  c !! i = Some u →
  (∀ i' u', i' < i → c !! i' = Some u' → py_eq u u' = false) →
  owned Scalar_init lo next (Some u) (attribute !! i).
Proof.
  intros Hn Hu Hfirst. rewrite <- Hu.
  apply (normalised_owned _ _ _ _ _ _ i Hn).
  - eapply lookup_lt_Some, Hu.
  - apply last_eq_None. intros i' Hi'. unfold eq_at. rewrite Hu.
    destruct (c !! i') as [u'|] eqn:Hu'; [|reflexivity]. eauto.
Qed.

(** C1. For each array passed to the constructor: when two of its raw
    entries are equal ([==], an equality by value: symmetric and
    transitive on the entries), the two normalised entries are one and
    the same instance of [Scalar]; and when the earlier of the two is the
    earliest entry equal to the later one, the shared instance is that
    entry's own: the caller's [Scalar], or the one made from the number. *)
Theorem equal_raw_entries_share_object z x zz lo m next c attribute :
  __init__ Scalar_init Scalar_eq z x zz lo = Ok (m, next) →
  (Some c, attribute) ∈ arrays z x zz m →
  eq_symmetric_on c →
  eq_transitive_on c →
  ∀ i j u v,
    i < j → c !! i = Some u → c !! j = Some v → py_eq v u = true →
    (∃ s, attribute !! i = Some (Obj s) ∧ attribute !! j = Some (Obj s)) ∧
    ((∀ i' u', i' < i → c !! i' = Some u' → py_eq v u' = false) →
     owned Scalar_init lo next (Some u) (attribute !! i)).
Proof.
  intros Hinit Hin Hsym Htrans i j u v Hij Hu Hv Hvu.
  destruct (arrays_normalised _ _ _ _ _ _ _ _ Hinit Hin)
    as (n & lo' & hi' & Hlo & Hhi & _ & _ & Hn).
  rewrite default_param_Some in Hn by (intros ->; discriminate).
  split.
  - destruct (normalised_Obj _ _ _ _ _ _ i Hn) as [s Hs];
      [eapply lookup_lt_Some, Hu|].
    exists s. split; [assumption|].
    now rewrite (normalised_shares c lo' attribute hi' Hn Hsym Htrans j i u v).
  - intros Hfirst. apply (owned_weaken lo' lo hi' next); [assumption..|].
    apply (normalised_first c lo' attribute hi' i u Hn Hu).
    intros i' u' Hi' Hu'. destruct (py_eq u u') eqn:E; [|reflexivity].
    rewrite <- (Hfirst i' u' Hi' Hu'). symmetry.
    apply (Htrans v u u'); try assumption;
      eapply list_elem_of_lookup_2; eassumption.
Qed.

(** *** Entries that are not wrapped *)

(** The outer loop of [_construct_attribute], run on the raw entries [c]
    from the fresh identity [lo], reaches [idx1 = j] with an instance of
    [Scalar] at position [j]: the test of the wrapping statement fails,
    and [Scalar(...)] is not called for this position. *)
Definition not_wrapped_at (self_L : nat) (c : list value) (lo j : nat)
    : Prop :=
  ∃ attribute flags next s,
    for_each (range 0 j) (construct_body Scalar_init Scalar_eq c (length c))
      (c, replicate self_L false, lo) = Ok (attribute, flags, next) ∧
    attribute !! j = Some (Obj s) ∧
    wrap_step Scalar_init j (attribute, next) = Ok (attribute, next).

Lemma prefix_not_wrapped self_L (c : list value) lo j :
  length c ≤ self_L →
  j < length c →
  (∃ s, c !! j = Some (Obj s)) ∨ (∃ i, last_eq Scalar_eq c j j = Some i) →
  not_wrapped_at self_L c lo j.
Proof.
  intros HL Hj Hcase.
  destruct (construct_loop_prefix Scalar_init Scalar_eq c
              (replicate self_L false) lo j)
    as (a & f & nx & Hrun & _ & _ & _ & Hobj & Hinv);
    [rewrite length_replicate; lia | lia |].
  specialize (Hinv j Hj). rewrite Nat.min_l in Hinv by lia.
  assert (∃ s, a !! j = Some (Obj s)) as [s Hs].
  { destruct (last_eq Scalar_eq c j j) as [i|] eqn:Hlast.
    - apply last_eq_Some in Hlast as (Hi & _).
      rewrite Hinv. apply Hobj, Hi.
    - destruct (decide (j < j)); [lia|]. rewrite Hinv.
      destruct Hcase as [Hs|[i Hi]]; [assumption | discriminate]. }
  exists a, f, nx, s. split; [assumption|]. split; [assumption|].
  unfold wrap_step. now rewrite (getitem_Ok _ _ _ Hs).
Qed.

Lemma arrays_not_wrapped z x zz lo m next c attribute j :
  __init__ Scalar_init Scalar_eq z x zz lo = Ok (m, next) →
  (Some c, attribute) ∈ arrays z x zz m →
  (∃ s, c !! j = Some (Obj s)) ∨ (∃ i, last_eq Scalar_eq c j j = Some i) →
  ∃ lo', lo ≤ lo' ∧ not_wrapped_at (L m) c lo' j.
Proof.
  intros Hinit Hin Hcase.
  destruct (arrays_normalised _ _ _ _ _ _ _ _ Hinit Hin)
    as (n & lo' & hi' & Hlo & _ & Hn & Hlen & _).
  assert (Hj : j < length c).
  { destruct Hcase as [[s Hs]|[i Hi]]; [eapply lookup_lt_Some, Hs|].
    apply last_eq_Some in Hi as (_ & Hi & _).
    apply eq_at_lookup in Hi as (u & _ & Hu & _). eapply lookup_lt_Some, Hu. }
  rewrite default_param_Some in Hlen by (intros ->; simpl in Hj; lia).
  exists lo'. split; [assumption|]. apply prefix_not_wrapped; [lia | assumption..].
Qed.

(** *** Two scenarios *)

Lemma determine_L_unique (z x zz : option (list value)) l :
  implied_by z x zz l →
  (∀ n, implied_by z x zz n → n = l) →
  _determine_L z x zz = Ok l.
Proof.
  intros Hl Hall.
  destruct (determine_L_cases z x zz) as [[E _]|[(l' & E & HL)|[Hs _]]].
  - apply elem_of_candidates in Hl. rewrite E in Hl.
    now apply not_elem_of_empty in Hl.
  - apply elem_of_candidates in Hl. rewrite E in Hl.
    apply elem_of_singleton in Hl. congruence.
  - apply candidates_conflict in Hs as (a & b & Hne & Ha & Hb).
    destruct Hne. rewrite (Hall a Ha), (Hall b Hb). reflexivity.
Qed.

(** Instances of [Scalar] made from the numbers of [cs] compare by the
    values of these numbers. *)
Definition constants_compare_by_value (cs : list number) : Prop :=
  ∀ i j c d, c ∈ cs → d ∈ cs →
    Scalar_eq (mkScalar i (Scalar_init c)) (Obj (mkScalar j (Scalar_init d)))
    = number_eq c d.

(** C5. For [x_fields = [1.0, 2.0, 1.0, 3.0]], the other two parameters
    absent, empty or of the sizes of a chain of four sites, and a class
    [Scalar] whose instances for 1.0, 2.0 and 3.0 compare by value: the
    normalised x-fields at the indices 0 and 2 are one and the same
    object, and the table is [[0, 1, 0, 3]]. *)
Theorem x_fields_1_2_1_3 z zz lo :
  constants_compare_by_value [py_float 1; py_float 2; py_float 3] →
  implied z 0 = None ∨ implied z 0 = Some 4 →
  implied zz 1 = None ∨ implied zz 1 = Some 4 →
  ∃ m next s,
    __init__ Scalar_init Scalar_eq z
      (Some [Num (py_float 1); Num (py_float 2); Num (py_float 1);
             Num (py_float 3)]) zz lo = Ok (m, next) ∧
    L m = 4 ∧
    x_fields m !! 0 = Some (Obj s) ∧
    x_fields m !! 2 = Some (Obj s) ∧
    _map_btwn_site_indices_and_unique_x_fields m = [0; 1; 0; 3].
Proof.
  intros Hcmp Hz Hzz.
  set (x := Some [Num (py_float 1); Num (py_float 2); Num (py_float 1);
                  Num (py_float 3)] : option (list value)).
  assert (HL : _determine_L z x zz = Ok 4).
  { apply determine_L_unique; [right; now left|].
    intros n [H|[H|H]]; [destruct Hz as [Hz|Hz] | | destruct Hzz as [Hzz|Hzz]];
      try congruence.
    now injection H as <-. }
  destruct (determine_L_sizes z x zz 4 HL) as (_ & Hlz & _ & Hlzz).
  set (a := mkScalar lo (Scalar_init (py_float 1))).
  set (b := mkScalar (1 + lo) (Scalar_init (py_float 2))).
  set (c := mkScalar (2 + lo) (Scalar_init (py_float 3))).
  assert (Hx : _construct_attribute Scalar_init Scalar_eq 4 x 4 lo
               = Ok ([Obj a; Obj b; Obj a; Obj c], 3 + lo))
    by (vm_compute; reflexivity).
  destruct (construct_attribute_spec Scalar_init Scalar_eq 4 z 4 (3 + lo))
    as (az & n2 & Haz & _); [assumption | lia |].
  destruct (construct_attribute_spec Scalar_init Scalar_eq 4 zz (4 - 1) n2)
    as (azz & n3 & Hazz & _); [assumption | lia |].
  assert (Hmap : _calc_map_btwn_site_indices_and_unique_x_fields Scalar_eq 4
                   [Obj a; Obj b; Obj a; Obj c] = Ok [0; 1; 0; 3]).
  { assert (Hin1 : py_float 1 ∈ [py_float 1; py_float 2; py_float 3])
      by (apply list_elem_of_In; simpl; tauto).
    assert (Hin2 : py_float 2 ∈ [py_float 1; py_float 2; py_float 3])
      by (apply list_elem_of_In; simpl; tauto).
    assert (Hin3 : py_float 3 ∈ [py_float 1; py_float 2; py_float 3])
      by (apply list_elem_of_In; simpl; tauto).
    unfold _calc_map_btwn_site_indices_and_unique_x_fields, a, b, c. cbn.
    rewrite !Hcmp by assumption.
    reflexivity. }
  exists (mkModel 4 [Obj a; Obj b; Obj a; Obj c] az azz [0; 1; 0; 3]), n3, a.
  split; [|now repeat split].
  unfold __init__. rewrite HL, bind_Ok, Hx, bind_Ok. cbn beta iota.
  rewrite Haz, bind_Ok. cbn beta iota. rewrite Hazz, bind_Ok. cbn beta iota.
  now rewrite Hmap, bind_Ok.
Qed.

(** C7, amended. With no x-fields and a chain of four sites, the four
    normalised x-fields are one and the same [Scalar(0)]; when that
    instance equals itself, the table is [[0, 0, 0, 0]]. *)
Theorem no_x_fields_four_sites z x zz lo :
  (∀ i, Scalar_eq (mkScalar i (Scalar_init (PyInt 0)))
          (Obj (mkScalar i (Scalar_init (PyInt 0)))) = true) →
  implied x 0 = None →
  _determine_L z x zz = Ok 4 →
  ∃ m next s,
    __init__ Scalar_init Scalar_eq z x zz lo = Ok (m, next) ∧
    L m = 4 ∧
    x_fields m = [Obj s; Obj s; Obj s; Obj s] ∧
    _map_btwn_site_indices_and_unique_x_fields m = [0; 0; 0; 0].
Proof.
  intros Hrefl Hx HL.
  destruct (determine_L_sizes z x zz 4 HL) as (_ & Hlz & _ & Hlzz).
  set (a := mkScalar lo (Scalar_init (PyInt 0))).
  assert (Hax : _construct_attribute Scalar_init Scalar_eq 4 x 4 lo
                = Ok ([Obj a; Obj a; Obj a; Obj a], 1 + lo)).
  { unfold _construct_attribute. rewrite (default_param_absent x 0 4 Hx).
    vm_compute. reflexivity. }
  destruct (construct_attribute_spec Scalar_init Scalar_eq 4 z 4 (1 + lo))
    as (az & n2 & Haz & _); [assumption | lia |].
  destruct (construct_attribute_spec Scalar_init Scalar_eq 4 zz (4 - 1) n2)
    as (azz & n3 & Hazz & _); [assumption | lia |].
  assert (Hmap : _calc_map_btwn_site_indices_and_unique_x_fields Scalar_eq 4
                   [Obj a; Obj a; Obj a; Obj a] = Ok [0; 0; 0; 0]).
  { unfold _calc_map_btwn_site_indices_and_unique_x_fields, a. cbn.
    rewrite !Hrefl. reflexivity. }
  exists (mkModel 4 [Obj a; Obj a; Obj a; Obj a] az azz [0; 0; 0; 0]), n3, a.
  split; [|now repeat split].
  unfold __init__. rewrite HL, bind_Ok, Hax, bind_Ok. cbn beta iota.
  rewrite Haz, bind_Ok. cbn beta iota. rewrite Hazz, bind_Ok. cbn beta iota.
  now rewrite Hmap, bind_Ok.
Qed.

(** On plain numbers [==] is symmetric and transitive, whatever the
    class [Scalar] is. *)
Lemma number_eq_sym x y : number_eq x y = number_eq y x.
Proof.
  unfold number_eq.
  destruct (number_value x) as [p|a|], (number_value y) as [q|b|];
    try reflexivity.
  - apply eq_true_iff_eq. rewrite !Qeq_bool_iff. split; apply Qeq_sym.
  - now destruct a, b.
Qed.

Lemma number_eq_trans x y z :
  number_eq x y = true → number_eq y z = true → number_eq x z = true.
Proof.
  unfold number_eq.
  destruct (number_value x) as [p|a|], (number_value y) as [q|b|],
    (number_value z) as [r|c|]; try discriminate.
  - rewrite !Qeq_bool_iff. apply Qeq_trans.
  - destruct a, b, c; (discriminate || reflexivity).
Qed.

Lemma plain_numbers_symmetric (c : list value) :
  Forall (λ v, isinstance_Scalar v = false) c → eq_symmetric_on c.
Proof.
  intros Hc u v Hu Hv. rewrite Forall_forall in Hc.
  pose proof (Hc u Hu) as Hu'. pose proof (Hc v Hv) as Hv'.
  destruct u as [x|?], v as [y|?]; try discriminate.
  simpl. now rewrite number_eq_sym.
Qed.

Lemma plain_numbers_transitive (c : list value) :
  Forall (λ v, isinstance_Scalar v = false) c → eq_transitive_on c.
Proof.
  intros Hc u v w Hu Hv Hw. rewrite Forall_forall in Hc.
  pose proof (Hc u Hu) as Hu'. pose proof (Hc v Hv) as Hv'.
  pose proof (Hc w Hw) as Hw'.
  destruct u as [x|?], v as [y|?], w as [z'|?]; try discriminate.
  simpl. apply number_eq_trans.
Qed.

End Properties.

(** ** The properties on the concrete classes *)

Lemma time_fn_eq_sym f g : time_fn_eq f g = time_fn_eq g f.
Proof.
  destruct f as [c|a], g as [d|b]; simpl; try reflexivity.
  - apply number_eq_sym.
  - apply bool_decide_ext. split; congruence.
Qed.

Lemma time_fn_eq_trans f g h :
  time_fn_eq f g = true → time_fn_eq g h = true → time_fn_eq f h = true.
Proof.
  destruct f as [c|a], g as [d|b], h as [e|k]; simpl; try discriminate.
  - apply number_eq_trans.
  - rewrite !bool_decide_eq_true. congruence.
Qed.

Lemma spec_eq_symmetric c : eq_symmetric_on spec_Scalar_eq c.
Proof.
  intros u v _ _. destruct u as [x|s], v as [y|t]; simpl; try discriminate.
  - now rewrite number_eq_sym.
  - now rewrite time_fn_eq_sym.
Qed.

Lemma spec_eq_transitive c : eq_transitive_on spec_Scalar_eq c.
Proof.
  intros u v w _ _ _.
  destruct u as [x|s], v as [y|t], w as [z|r]; simpl; try discriminate.
  - apply number_eq_trans.
  - apply time_fn_eq_trans.
Qed.

(** Raw z-fields [[5.0, 5.0]]: the two normalised entries are one object. *)
Lemma equal_raw_entries_share_object_witness :
  let c := [Num (py_float 5); Num (py_float 5)] in
  ∃ m next,
    __init__ constant spec_Scalar_eq (Some c) None None 0 = Ok (m, next) ∧
    py_eq spec_Scalar_eq (Num (py_float 5)) (Num (py_float 5)) = true ∧
    (∃ s, z_fields m !! 0 = Some (Obj s) ∧ z_fields m !! 1 = Some (Obj s)) ∧
    ((∀ i' u', i' < 0 → c !! i' = Some u' →
        py_eq spec_Scalar_eq (Num (py_float 5)) u' = false) →
     owned constant 0 next (Some (Num (py_float 5))) (z_fields m !! 0)).
Proof.
  intros c. eexists _, _. split; [vm_compute; reflexivity|].
  split; [reflexivity|].
  apply (equal_raw_entries_share_object constant spec_Scalar_eq
           (Some c) None None 0 _ _ c _ eq_refl).
  - repeat constructor.
  - apply spec_eq_symmetric.
  - apply spec_eq_transitive.
  - lia.
  - reflexivity.
  - reflexivity.
  - reflexivity.
Defined.

(** No fields and three couplers: a chain of four sites, with zero
    fields. *)
Lemma chain_length_and_defaults_witness :
  let zz := Some [Num (py_float 1); Num (py_float 2); Num (py_float 1)] in
  (∀ a b, implied_by (ScalarState := time_fn) None None zz a →
          implied_by None None zz b → a = b) ∧
  ∃ m next,
    __init__ constant spec_Scalar_eq None None zz 7 = Ok (m, next) ∧
    L m = 4 ∧
    zero_Scalars constant 4 (z_fields m) ∧
    zero_Scalars constant 4 (x_fields m) ∧
    length (zz_couplers m) = 3.
Proof.
  intros zz.
  assert (Huniq : ∀ a b, implied_by (ScalarState := time_fn) None None zz a →
                         implied_by None None zz b → a = b).
  { intros a b [Ha|[Ha|Ha]] [Hb|[Hb|Hb]]; vm_compute in Ha, Hb; congruence. }
  split; [exact Huniq|].
  destruct (chain_length_and_defaults constant spec_Scalar_eq None None zz 7 Huniq)
    as (m & next & Hinit & _ & HL & Hz & Hx & _ & _ & _ & Hlzz).
  assert (Hm : L m = 4) by (apply HL; right; right; reflexivity).
  exists m, next. rewrite Hm in Hz, Hx, Hlzz.
  split; [assumption|]. split; [assumption|].
  split; [now apply Hz|]. split; [now apply Hx | assumption].
Defined.

(** The table of [x_fields = [1.0, 2.0, 1.0, 3.0]] at site 2. *)
Lemma map_is_smallest_equal_site_witness :
  let x := Some [Num (py_float 1); Num (py_float 2); Num (py_float 1);
                 Num (py_float 3)] in
  ∃ m next,
    __init__ constant spec_Scalar_eq None x None 0 = Ok (m, next) ∧
    eq_reflexive_on spec_Scalar_eq (x_fields m) ∧
    2 < L m ∧
    ∃ i xr xi,
      _map_btwn_site_indices_and_unique_x_fields m !! 2 = Some i ∧
      x_fields m !! 2 = Some xr ∧
      x_fields m !! i = Some xi ∧
      py_eq spec_Scalar_eq xr xi = true ∧
      ∀ i' xi', i' < i → x_fields m !! i' = Some xi' →
                py_eq spec_Scalar_eq xr xi' = false.
Proof.
  intros x. eexists _, _. split; [vm_compute; reflexivity|].
  assert (Hrefl : eq_reflexive_on spec_Scalar_eq
            (x_fields (mkModel 4
               [Obj (mkScalar 0 (constant (py_float 1)));
                Obj (mkScalar 1 (constant (py_float 2)));
                Obj (mkScalar 0 (constant (py_float 1)));
                Obj (mkScalar 2 (constant (py_float 3)))]
               [Obj (mkScalar 3 (constant (PyInt 0)));
                Obj (mkScalar 3 (constant (PyInt 0)));
                Obj (mkScalar 3 (constant (PyInt 0)));
                Obj (mkScalar 3 (constant (PyInt 0)))]
               [Obj (mkScalar 4 (constant (PyInt 0)));
                Obj (mkScalar 4 (constant (PyInt 0)));
                Obj (mkScalar 4 (constant (PyInt 0)))]
               [0; 1; 0; 3]))).
  { intros u Hu. simpl in Hu.
    repeat (apply elem_of_cons in Hu as [->|Hu]; [reflexivity|]).
    now apply elem_of_nil in Hu. }
  split; [exact Hrefl|]. split; [simpl; lia|].
  apply (map_is_smallest_equal_site constant spec_Scalar_eq None x None 0 _ _ 2
           eq_refl Hrefl).
  - apply spec_eq_symmetric.
  - apply spec_eq_transitive.
  - vm_compute. lia.
Defined.

(** The scenario of [x_fields = [1.0, 2.0, 1.0, 3.0]] on the class
    modelled from the spec. *)
Lemma x_fields_1_2_1_3_witness :
  constants_compare_by_value constant spec_Scalar_eq
    [py_float 1; py_float 2; py_float 3] ∧
  ∃ m next s,
    __init__ constant spec_Scalar_eq None
      (Some [Num (py_float 1); Num (py_float 2); Num (py_float 1);
             Num (py_float 3)]) None 0 = Ok (m, next) ∧
    L m = 4 ∧
    x_fields m !! 0 = Some (Obj s) ∧
    x_fields m !! 2 = Some (Obj s) ∧
    _map_btwn_site_indices_and_unique_x_fields m = [0; 1; 0; 3].
Proof.
  assert (Hcmp : constants_compare_by_value constant spec_Scalar_eq
                   [py_float 1; py_float 2; py_float 3]).
  { intros i j c d _ _. reflexivity. }
  split; [exact Hcmp|].
  apply (x_fields_1_2_1_3 constant spec_Scalar_eq None None 0 Hcmp).
  - left. reflexivity.
  - left. reflexivity.
Defined.

(** C7 as stated fails: with no x-fields and three couplers the table is
    [[0, 0, 0, 0]]. *)
Lemma no_x_fields_four_sites_counterexample :
  let zz := Some [Num (py_float 1); Num (py_float 2); Num (py_float 1)] in
  ∃ m next,
    __init__ constant spec_Scalar_eq None None zz 0 = Ok (m, next) ∧
    L m = 4 ∧
    _map_btwn_site_indices_and_unique_x_fields m = [0; 0; 0; 0] ∧
    _map_btwn_site_indices_and_unique_x_fields m ≠ [0; 1; 2; 3].
Proof.
  intros zz. eexists _, _. split; [vm_compute; reflexivity|].
  split; [reflexivity|]. split; [reflexivity|]. discriminate.
Defined.

Lemma no_x_fields_four_sites_witness :
  let zz := Some [Num (py_float 1); Num (py_float 2); Num (py_float 1)] in
  (∀ i, spec_Scalar_eq (mkScalar i (constant (PyInt 0)))
          (Obj (mkScalar i (constant (PyInt 0)))) = true) ∧
  implied (ScalarState := time_fn) None 0 = None ∧
  _determine_L (ScalarState := time_fn) None None zz = Ok 4 ∧
  ∃ m next s,
    __init__ constant spec_Scalar_eq None None zz 0 = Ok (m, next) ∧
    L m = 4 ∧
    x_fields m = [Obj s; Obj s; Obj s; Obj s] ∧
    _map_btwn_site_indices_and_unique_x_fields m = [0; 0; 0; 0].
Proof.
  intros zz.
  assert (Hrefl : ∀ i, spec_Scalar_eq (mkScalar i (constant (PyInt 0)))
                         (Obj (mkScalar i (constant (PyInt 0)))) = true)
    by reflexivity.
  assert (HL : _determine_L (ScalarState := time_fn) None None zz = Ok 4)
    by (vm_compute; reflexivity).
  split; [exact Hrefl|]. split; [reflexivity|]. split; [exact HL|].
  exact (no_x_fields_four_sites constant spec_Scalar_eq None None zz 0
           Hrefl eq_refl HL).
Defined.

Lemma attributes_hold_Scalars_witness :
  let z := Some [Num (py_float 1); Obj (mkScalar 0 (varying 7))] in
  let zz := Some [Num (PyInt 2)] in
  ∃ m next,
    __init__ constant spec_Scalar_eq z None zz 1 = Ok (m, next) ∧
    Forall (λ v, isinstance_Scalar v = true) (z_fields m) ∧
    Forall (λ v, isinstance_Scalar v = true) (x_fields m) ∧
    Forall (λ v, isinstance_Scalar v = true) (zz_couplers m).
Proof.
  intros z zz. eexists _, _. split; [vm_compute; reflexivity|].
  exact (attributes_hold_Scalars constant spec_Scalar_eq z None zz 1 _ _ eq_refl).
Defined.

Lemma map_below_and_idempotent_witness :
  let x := Some [Num (py_float 1); Num (py_float 2); Num (py_float 1);
                 Num (py_float 3)] in
  ∃ m next,
    __init__ constant spec_Scalar_eq None x None 0 = Ok (m, next) ∧
    2 < L m ∧
    ∃ i, _map_btwn_site_indices_and_unique_x_fields m !! 2 = Some i ∧
         0 ≤ i ≤ 2 ∧
         _map_btwn_site_indices_and_unique_x_fields m !! i = Some i.
Proof.
  intros x. eexists _, _. split; [vm_compute; reflexivity|].
  assert (H4 : 2 < 4) by lia. split; [exact H4|].
  exact (map_below_and_idempotent constant spec_Scalar_eq None x None 0 _ _ 2
           eq_refl H4).
Defined.

(** ** Further properties of the class *)

Section Shape.

Context {ScalarState : Type}.
Variable Scalar_init : number → ScalarState.
Variable Scalar_eq : Scalar ScalarState → value ScalarState → bool.

Local Abbreviation value := (value ScalarState).

(** The calls that a returning [__init__] has made, in their order. *)
Lemma init_calls z x zz lo m next :
  __init__ Scalar_init Scalar_eq z x zz lo = Ok (m, next) →
  ∃ n1 n2,
    _determine_L z x zz = Ok (L m) ∧
    _construct_attribute Scalar_init Scalar_eq (L m) x (L m) lo
      = Ok (x_fields m, n1) ∧
    _construct_attribute Scalar_init Scalar_eq (L m) z (L m) n1
      = Ok (z_fields m, n2) ∧
    _construct_attribute Scalar_init Scalar_eq (L m) zz (L m - 1) n2
      = Ok (zz_couplers m, next) ∧
    _calc_map_btwn_site_indices_and_unique_x_fields Scalar_eq (L m)
      (x_fields m) = Ok (_map_btwn_site_indices_and_unique_x_fields m).
Proof.
  unfold __init__. intros H.
  apply bind_inv in H as (l & HL & H).
  apply bind_inv in H as ([ax n1] & Hx & H).
  apply bind_inv in H as ([az n2] & Hz & H).
  apply bind_inv in H as ([azz n3] & Hzz & H).
  apply bind_inv in H as (mp & Hmp & H).
  injection H as <- <-. simpl. eauto 10.
Qed.

(** X1. The shape of every instance: a positive number of sites, one field
    of each kind and one table entry per site, one coupler per bond; and
    the identities only grow. *)
Theorem constructed_shape z x zz lo m next :
  __init__ Scalar_init Scalar_eq z x zz lo = Ok (m, next) →
  1 ≤ L m ∧
  length (x_fields m) = L m ∧
  length (z_fields m) = L m ∧
  length (zz_couplers m) = L m - 1 ∧
  length (_map_btwn_site_indices_and_unique_x_fields m) = L m ∧
  lo ≤ next.
Proof.
  intros Hinit.
  destruct (init_inv _ _ _ _ _ _ _ _ Hinit)
    as (HL & n1 & n2 & Hx & Hz & Hzz & Hlen & _).
  destruct (determine_L_sizes _ _ _ _ HL) as (Hpos & Hlz & Hlx & Hlzz).
  pose proof (normalised_length _ _ _ _ _ _ Hx) as Hx'.
  pose proof (normalised_length _ _ _ _ _ _ Hz) as Hz'.
  pose proof (normalised_length _ _ _ _ _ _ Hzz) as Hzz'.
  assert (lo ≤ n1) by apply Hx. assert (n1 ≤ n2) by apply Hz.
  assert (n2 ≤ next) by apply Hzz.
  repeat split; [assumption | congruence.. | lia].
Qed.

(** X2. An empty parameter is treated as an absent one: the constructor
    returns the same result, or raises the same exception, for both. *)
Theorem empty_parameter_is_absent (z x zz : option (list value)) lo :
  __init__ Scalar_init Scalar_eq (Some []) x zz lo
    = __init__ Scalar_init Scalar_eq None x zz lo ∧
  __init__ Scalar_init Scalar_eq z (Some []) zz lo
    = __init__ Scalar_init Scalar_eq z None zz lo ∧
  __init__ Scalar_init Scalar_eq z x (Some []) lo
    = __init__ Scalar_init Scalar_eq z x None lo.
Proof.
  assert (Hd : ∀ n, default_param (ScalarState := ScalarState) (Some []) n
                    = default_param None n).
  { intros n. unfold default_param. simpl. now case_bool_decide. }
  assert (Hc : ∀ l n k, _construct_attribute Scalar_init Scalar_eq l (Some []) n k
                        = _construct_attribute Scalar_init Scalar_eq l None n k).
  { intros l n k. unfold _construct_attribute. now rewrite Hd. }
  assert (Ha : ∀ e (X : gset nat),
             add_candidate (ScalarState := ScalarState) (Some []) e X
             = add_candidate (ScalarState := ScalarState) None e X)
    by reflexivity.
  unfold __init__, _determine_L, candidates. rewrite !Ha.
  split; [|split].
  - destruct (_ : outcome nat) as [l|e]; [|reflexivity]. simpl.
    destruct (_construct_attribute Scalar_init Scalar_eq l x l lo)
      as [[ax n1]|e]; [|reflexivity].
    simpl. now rewrite Hc.
  - destruct (_ : outcome nat) as [l|e]; [|reflexivity]. simpl. now rewrite Hc.
  - destruct (_ : outcome nat) as [l|e]; [|reflexivity]. simpl.
    destruct (_construct_attribute Scalar_init Scalar_eq l x l lo)
      as [[ax n1]|e]; [|reflexivity].
    simpl.
    destruct (_construct_attribute Scalar_init Scalar_eq l z l n1)
      as [[az n2]|e]; [|reflexivity].
    simpl. now rewrite Hc.
Qed.

End Shape.

(** *** The objects the constructor makes *)

Section Fresh.

Context {ScalarState : Type}.
Variable Scalar_init : number → ScalarState.
Variable Scalar_eq : Scalar ScalarState → value ScalarState → bool.

Local Abbreviation value := (value ScalarState).
Local Abbreviation py_eq := (py_eq Scalar_eq).
Local Abbreviation normalised := (normalised Scalar_init Scalar_eq).

(** Position [j] of the raw entries [c] is one for which [Scalar(...)] is
    called: a plain number that equals no earlier entry. *)
Definition wrapped_at (c : list value) (j : nat) : bool :=
  match c !! j, last_eq Scalar_eq c j j with
  | Some (Num _), None => true
  | _, _ => false
  end.

(** The number of such positions before [k]. *)
Fixpoint wrapped_before (c : list value) (k : nat) : nat :=
  match k with
  | 0 => 0
  | S k' => wrapped_before c k' + (if wrapped_at c k' then 1 else 0)
  end.

Lemma wrapped_before_mono c j k :
  j ≤ k → wrapped_before c j ≤ wrapped_before c k.
Proof. induction 1; simpl; lia. Qed.

Lemma wrapped_before_lt c j k :
  j < k → wrapped_at c j = true → wrapped_before c j < wrapped_before c k.
Proof.
  intros Hjk Hw. pose proof (wrapped_before_mono c (S j) k Hjk) as H.
  simpl in H. rewrite Hw in H. lia.
Qed.

Lemma wrapped_before_le c k : wrapped_before c k ≤ k.
Proof. induction k as [|k IH]; simpl; [lia|]. destruct (wrapped_at c k); lia. Qed.

(** One round of the outer loop: the counter moves exactly when the
    position is wrapped, and earlier positions are left alone. *)
Lemma construct_body_exact (c attribute : list value) (flags : list bool)
    lo k next attribute' flags' next' :
  k < length c →
  length c ≤ length flags →
  construct_inv Scalar_init Scalar_eq c lo k attribute next →
  construct_body Scalar_init Scalar_eq c (length c) k
    (attribute, flags, next) = Ok (attribute', flags', next') →
  next' = next + (if wrapped_at c k then 1 else 0) ∧
  (∀ j, j < k → attribute' !! j = attribute !! j) ∧
  (∀ x, wrapped_at c k = true → c !! k = Some (Num x) →
        attribute' !! k = Some (Scalar_new Scalar_init x next)).
Proof.
  intros Hk Hfl (Hlen & Hlo & Hobj & Hinv) Hrun.
  destruct (lookup_lt_is_Some_2 attribute k) as [a1 Ha1]; [lia|].
  destruct (wrap_step_spec Scalar_init attribute k a1 next Ha1)
    as (attr1 & next1 & ak & Hwrap & Hlen1 & Hother & Hak & Hcase).
  destruct (share_loop Scalar_eq c attr1 flags k ak) as
    (attr2 & flags2 & Hshare & Hlen2 & Hfl2 & Hspec);
    [congruence | assumption | assumption |].
  unfold construct_body in Hrun.
  rewrite Hwrap, bind_Ok in Hrun. simpl in Hrun.
  rewrite Hshare, bind_Ok in Hrun. injection Hrun as <- <- <-.
  assert (Hk2 : attr2 !! k = Some ak).
  { rewrite Hspec, bool_decide_eq_false_2 by lia. assumption. }
  specialize (Hinv k Hk). rewrite Nat.min_l in Hinv by lia.
  split; [|split].
  - unfold wrapped_at.
    destruct (last_eq Scalar_eq c k k) as [i|] eqn:Hlast.
    + apply last_eq_Some in Hlast as (Hi & _).
      destruct (Hobj i Hi) as [s Hs]. rewrite <- Hinv, Ha1 in Hs.
      injection Hs as ->. destruct Hcase as (_ & -> & _).
      destruct (c !! k) as [[?|?]|]; lia.
    + destruct (decide (k < k)); [lia|]. rewrite <- Hinv, Ha1.
      destruct a1 as [x|s]; [destruct Hcase as [_ ->] | destruct Hcase as (_ & -> & _)];
        lia.
  - intros j Hj. rewrite Hspec, bool_decide_eq_false_2 by lia.
    apply Hother. lia.
  - intros x Hw Hx. rewrite Hk2. f_equal.
    unfold wrapped_at in Hw. rewrite Hx in Hw.
    destruct (last_eq Scalar_eq c k k) as [i|] eqn:Hlast; [discriminate|].
    destruct (decide (k < k)); [lia|]. rewrite Ha1, Hx in Hinv.
    injection Hinv as ->. now destruct Hcase as [-> _].
Qed.

(** The outer loop up to [idx1 = k]: the identities are handed out in
    the order of the wrapped positions. *)
Lemma construct_loop_exact (c : list value) (flags : list bool) lo k
    attribute flags' next :
  length c ≤ length flags →
  k ≤ length c →
  for_each (range 0 k) (construct_body Scalar_init Scalar_eq c (length c))
    (c, flags, lo) = Ok (attribute, flags', next) →
  next = lo + wrapped_before c k ∧
  ∀ j x, j < k → wrapped_at c j = true → c !! j = Some (Num x) →
    attribute !! j = Some (Scalar_new Scalar_init x (lo + wrapped_before c j)).
Proof.
  intros Hfl. revert attribute flags' next.
  induction k as [|k IH]; intros attribute flags' next Hk Hrun.
  - rewrite range_le in Hrun by lia. simpl in Hrun. injection Hrun as <- <- <-.
    simpl. split; [lia|]. intros j x Hj. lia.
  - rewrite (range_split 0 k (S k)), for_each_app in Hrun by lia.
    apply bind_inv in Hrun as ([[ak fk] nk] & Hprefix & Hlast).
    rewrite range_lt, range_le in Hlast by lia. simpl in Hlast.
    apply bind_inv in Hlast as ([[a' f'] n'] & Hbody & Heq).
    injection Heq as <- <- <-.
    destruct (IH ak fk nk) as [Hnk Hids]; [lia | assumption |].
    destruct (construct_loop_prefix Scalar_init Scalar_eq c flags lo k)
      as (ak' & fk' & nk' & Hprefix' & Hflk & Hinv); [assumption | lia |].
    rewrite Hprefix in Hprefix'. injection Hprefix' as <- <- <-.
    destruct (construct_body_exact c ak fk lo k nk a' f' n')
      as (Hn' & Hframe & Hnew); [lia | lia | assumption | assumption |].
    split; [simpl; lia|].
    intros j x Hj Hw Hx. destruct (decide (j = k)) as [->|Hne].
    + rewrite (Hnew x Hw Hx). now rewrite Hnk.
    + rewrite Hframe by lia. apply Hids; [lia | assumption..].
Qed.

(** [_construct_attribute] makes one object per wrapped position, with
    consecutive identities from [lo] on. *)
Lemma construct_attribute_exact self_L param array_size lo attribute next :
  length (default_param param array_size) = array_size →
  array_size ≤ self_L →
  _construct_attribute Scalar_init Scalar_eq self_L param array_size lo
    = Ok (attribute, next) →
  let c := default_param param array_size in
  normalised c lo attribute next ∧
  next = lo + wrapped_before c array_size ∧
  ∀ j x, wrapped_at c j = true → c !! j = Some (Num x) →
    attribute !! j = Some (Scalar_new Scalar_init x (lo + wrapped_before c j)).
Proof.
  intros Hlen HL Hrun c.
  destruct (construct_attribute_spec Scalar_init Scalar_eq self_L param
              array_size lo Hlen HL) as (a' & n' & Hrun' & Hn).
  rewrite Hrun in Hrun'. injection Hrun' as <- <-.
  split; [exact Hn|].
  unfold _construct_attribute in Hrun. fold c in Hrun.
  apply bind_inv in Hrun as ([[a f] n] & Hloop & Heq).
  injection Heq as <- <-.
  destruct (construct_loop_exact c (replicate self_L false) lo array_size a f n)
    as [Hnext Hids].
  - rewrite length_replicate. subst c. lia.
  - subst c. lia.
  - subst c. now rewrite Hlen.
  - split; [assumption|]. intros j x Hw Hx. apply Hids; [|assumption..].
    rewrite <- Hlen. eapply lookup_lt_Some, Hx.
Qed.

End Fresh.

Section Objects.

Context {ScalarState : Type}.
Variable Scalar_init : number → ScalarState.
Variable Scalar_eq : Scalar ScalarState → value ScalarState → bool.

Local Abbreviation value := (value ScalarState).
Local Abbreviation py_eq := (py_eq Scalar_eq).
Local Abbreviation normalised := (normalised Scalar_init Scalar_eq).

(** The three parameters after the defaulting statements of
    [_construct_attribute], each with the attribute built from it. *)
Definition raw_arrays (z x zz : option (list value)) (m : Model ScalarState)
    : list (list value * list value) :=
  [(default_param z (L m), z_fields m);
   (default_param x (L m), x_fields m);
   (default_param zz (L m - 1), zz_couplers m)].

(** The identities that the three calls of [_construct_attribute] use. *)
Lemma init_ranges z x zz lo m next :
  __init__ Scalar_init Scalar_eq z x zz lo = Ok (m, next) →
  ∃ n1 n2,
    lo ≤ n1 ∧ n1 ≤ n2 ∧ n2 ≤ next ∧
    let cx := default_param x (L m) in
    let cz := default_param z (L m) in
    let czz := default_param zz (L m - 1) in
    (length cx = L m ∧ length cz = L m ∧ length czz = L m - 1) ∧
    normalised cx lo (x_fields m) n1 ∧
    normalised cz n1 (z_fields m) n2 ∧
    normalised czz n2 (zz_couplers m) next ∧
    n1 = lo + wrapped_before Scalar_eq cx (L m) ∧
    n2 = n1 + wrapped_before Scalar_eq cz (L m) ∧
    next = n2 + wrapped_before Scalar_eq czz (L m - 1) ∧
    (∀ j y, wrapped_at Scalar_eq cx j = true → cx !! j = Some (Num y) →
       x_fields m !! j
       = Some (Scalar_new Scalar_init y (lo + wrapped_before Scalar_eq cx j))) ∧
    (∀ j y, wrapped_at Scalar_eq cz j = true → cz !! j = Some (Num y) →
       z_fields m !! j
       = Some (Scalar_new Scalar_init y (n1 + wrapped_before Scalar_eq cz j))) ∧
    (∀ j y, wrapped_at Scalar_eq czz j = true → czz !! j = Some (Num y) →
       zz_couplers m !! j
       = Some (Scalar_new Scalar_init y (n2 + wrapped_before Scalar_eq czz j))).
Proof.
  intros Hinit.
  destruct (init_calls _ _ _ _ _ _ _ _ Hinit)
    as (n1 & n2 & HL & Hx & Hz & Hzz & _).
  destruct (determine_L_sizes _ _ _ _ HL) as (Hpos & Hlz & Hlx & Hlzz).
  destruct (construct_attribute_exact _ _ _ _ _ _ _ _ Hlx (le_n _) Hx)
    as (Hnx & Hn1 & Hix).
  destruct (construct_attribute_exact _ _ _ _ _ _ _ _ Hlz (le_n _) Hz)
    as (Hnz & Hn2 & Hiz).
  assert (Hle : L m - 1 ≤ L m) by lia.
  destruct (construct_attribute_exact _ _ _ _ _ _ _ _ Hlzz Hle Hzz)
    as (Hnzz & Hn3 & Hizz).
  exists n1, n2. split; [lia|]. split; [lia|]. split; [lia|].
  simpl. auto 10.
Qed.

(** Where an entry of a normalised array comes from: the raw entry at
    some position not after its own. *)
Lemma normalised_origin c lo attribute next j :
  normalised c lo attribute next →
  j < length c →
  ∃ i, i ≤ j ∧ owned Scalar_init lo next (c !! i) (attribute !! j).
Proof.
  intros Hn. induction j as [j IH] using lt_wf_ind. intros Hj.
  destruct (last_eq Scalar_eq c j j) as [p|] eqn:Hlast.
  - rewrite (normalised_shared _ _ _ _ _ _ j p Hn Hlast).
    apply last_eq_Some in Hlast as (Hp & _).
    destruct (IH p Hp) as (i & Hi & Ho); [lia|]. exists i. split; [lia | exact Ho].
  - exists j. split; [lia|]. now apply (normalised_owned _ _ _ _ _ _ j Hn).
Qed.

Lemma normalised_entry_origin c lo attribute next s :
  normalised c lo attribute next →
  Obj s ∈ attribute →
  Obj s ∈ c ∨ lo ≤ obj_id s < next.
Proof.
  intros Hn Hs. apply list_elem_of_lookup in Hs as [j Hj].
  assert (Hlt : j < length c).
  { rewrite <- (normalised_length _ _ _ _ _ _ Hn). eapply lookup_lt_Some, Hj. }
  destruct (normalised_origin c lo attribute next j Hn Hlt) as (i & _ & Ho).
  unfold owned in Ho. rewrite Hj in Ho.
  destruct (c !! i) as [[x|t]|] eqn:Hi; [| |contradiction].
  - right. destruct Ho as (id & Hid & [= ->]). simpl. lia.
  - left. injection Ho as ->. eapply list_elem_of_lookup_2, Hi.
Qed.

(** X3. An entry of an attribute is never invented: it is one of the
    caller's instances of [Scalar], found in the same parameter at a
    position not after its own, or an instance made during this call from
    a plain number found there. *)
Theorem entries_come_from_the_parameter z x zz lo m next c attribute j v :
  __init__ Scalar_init Scalar_eq z x zz lo = Ok (m, next) →
  (c, attribute) ∈ raw_arrays z x zz m →
  attribute !! j = Some v →
  ∃ i u, i ≤ j ∧ c !! i = Some u ∧
    match u with
    | Obj s => v = Obj s
    | Num y => ∃ id, lo ≤ id < next ∧ v = Scalar_new Scalar_init y id
    end.
Proof.
  intros Hinit Hin Hv.
  destruct (init_ranges _ _ _ _ _ _ Hinit)
    as (n1 & n2 & H1 & H2 & H3 & _ & Hx & Hz & Hzz & _).
  assert (∃ lo' hi', lo ≤ lo' ∧ hi' ≤ next ∧ normalised c lo' attribute hi')
    as (lo' & hi' & Hlo & Hhi & Hn).
  { unfold raw_arrays in Hin. rewrite !elem_of_cons, elem_of_nil in Hin.
    destruct Hin as [[= -> ->]|[[= -> ->]|[[= -> ->]|[]]]].
    - exists n1, n2. split; [lia|]. split; [lia | assumption].
    - exists lo, n1. split; [lia|]. split; [lia | assumption].
    - exists n2, next. split; [lia|]. split; [lia | assumption]. }
  assert (Hj : j < length c).
  { rewrite <- (normalised_length _ _ _ _ _ _ Hn). eapply lookup_lt_Some, Hv. }
  destruct (normalised_origin c lo' attribute hi' j Hn Hj) as (i & Hi & Ho).
  unfold owned in Ho. rewrite Hv in Ho.
  destruct (c !! i) as [u|] eqn:Hu; [|contradiction].
  exists i, u. split; [assumption|]. split; [exact Hu|].
  destruct u as [y|s].
  - destruct Ho as (id & Hid & [= ->]). exists id. split; [lia | reflexivity].
  - now injection Ho as ->.
Qed.

(** X4. The constructor makes exactly one object for each position of a
    parameter that holds a plain number equal to no earlier entry, and
    none else; so at most one per position. *)
Theorem objects_made z x zz lo m next :
  __init__ Scalar_init Scalar_eq z x zz lo = Ok (m, next) →
  next = lo + wrapped_before Scalar_eq (default_param x (L m)) (L m)
            + wrapped_before Scalar_eq (default_param z (L m)) (L m)
            + wrapped_before Scalar_eq (default_param zz (L m - 1)) (L m - 1) ∧
  next ≤ lo + 3 * L m - 1.
Proof.
  intros Hinit.
  destruct (init_ranges _ _ _ _ _ _ Hinit)
    as (n1 & n2 & _ & _ & _ & _ & _ & _ & _ & Hn1 & Hn2 & Hn3 & _).
  destruct (init_calls _ _ _ _ _ _ _ _ Hinit) as (_ & _ & HL & _).
  destruct (determine_L_sizes _ _ _ _ HL) as (Hpos & _).
  split; [lia|].
  pose proof (wrapped_before_le Scalar_eq (default_param x (L m)) (L m)).
  pose proof (wrapped_before_le Scalar_eq (default_param z (L m)) (L m)).
  pose proof (wrapped_before_le Scalar_eq (default_param zz (L m - 1)) (L m - 1)).
  lia.
Qed.

Lemma wrapped_before_Scalars (c : list value) k :
  Forall (λ v, isinstance_Scalar v = true) c → wrapped_before Scalar_eq c k = 0.
Proof.
  intros Hc. induction k as [|k IH]; simpl; [reflexivity|]. rewrite IH.
  unfold wrapped_at. destruct (c !! k) as [[y|s]|] eqn:Hk; try reflexivity.
  apply list_elem_of_lookup_2 in Hk. rewrite Forall_forall in Hc.
  specialize (Hc _ Hk). discriminate.
Qed.

(** X5. When the three parameters are non-empty and hold only instances
    of [Scalar], the constructor makes no object: every entry of an
    attribute is one of the caller's instances, taken from the same
    parameter. *)
Theorem Scalars_only_make_nothing cz cx czz lo m next :
  __init__ Scalar_init Scalar_eq (Some cz) (Some cx) (Some czz) lo
    = Ok (m, next) →
  cz ≠ [] → cx ≠ [] → czz ≠ [] →
  Forall (λ v, isinstance_Scalar v = true) (cz ++ cx ++ czz) →
  next = lo ∧
  (∀ v, v ∈ z_fields m → v ∈ cz) ∧
  (∀ v, v ∈ x_fields m → v ∈ cx) ∧
  (∀ v, v ∈ zz_couplers m → v ∈ czz).
Proof.
  intros Hinit Hz0 Hx0 Hzz0 Hall.
  apply Forall_app in Hall as [Hcz Hall]. apply Forall_app in Hall as [Hcx Hczz].
  destruct (init_ranges _ _ _ _ _ _ Hinit)
    as (n1 & n2 & _ & _ & _ & _ & Hx & Hz & Hzz & Hn1 & Hn2 & Hn3 & _).
  rewrite (default_param_Some _ _ Hx0) in Hx, Hn1.
  rewrite (default_param_Some _ _ Hz0) in Hz, Hn2.
  rewrite (default_param_Some _ _ Hzz0) in Hzz, Hn3.
  rewrite wrapped_before_Scalars in Hn1, Hn2, Hn3 by assumption.
  assert (Hfrom : ∀ c lo' hi' attribute v,
            Forall (λ v, isinstance_Scalar v = true) c →
            normalised c lo' attribute hi' → v ∈ attribute → v ∈ c).
  { intros c lo' hi' attribute v Hc Hn Hv.
    apply list_elem_of_lookup in Hv as [j Hj].
    assert (Hlt : j < length c).
    { rewrite <- (normalised_length _ _ _ _ _ _ Hn). eapply lookup_lt_Some, Hj. }
    destruct (normalised_origin c lo' attribute hi' j Hn Hlt) as (i & _ & Ho).
    unfold owned in Ho. rewrite Hj in Ho.
    destruct (c !! i) as [[y|t]|] eqn:Hi; [| |contradiction].
    - apply list_elem_of_lookup_2 in Hi. rewrite Forall_forall in Hc.
      specialize (Hc _ Hi). discriminate.
    - injection Ho as ->. eapply list_elem_of_lookup_2, Hi. }
  split; [lia|]. split; [|split]; intros v Hv.
  - exact (Hfrom _ _ _ _ v Hcz Hz Hv).
  - exact (Hfrom _ _ _ _ v Hcx Hx Hv).
  - exact (Hfrom _ _ _ _ v Hczz Hzz Hv).
Qed.

(** X6. An object made by the constructor is in one attribute only. When
    every instance among the parameters has an identity below the first
    fresh one, two entries of different attributes with the same identity
    are both instances that the caller passed in those parameters. *)
Theorem no_sharing_across_attributes z x zz lo m next a b c1 attr1 c2 attr2
    s1 s2 :
  __init__ Scalar_init Scalar_eq z x zz lo = Ok (m, next) →
  (∀ c attribute s,
     (c, attribute) ∈ raw_arrays z x zz m → Obj s ∈ c → obj_id s < lo) →
  raw_arrays z x zz m !! a = Some (c1, attr1) →
  raw_arrays z x zz m !! b = Some (c2, attr2) →
  a ≠ b →
  Obj s1 ∈ attr1 →
  Obj s2 ∈ attr2 →
  obj_id s1 = obj_id s2 →
  Obj s1 ∈ c1 ∧ Obj s2 ∈ c2.
Proof.
  intros Hinit Hwf Ha Hb Hab Hs1 Hs2 Hid.
  destruct (init_ranges _ _ _ _ _ _ Hinit)
    as (n1 & n2 & H1 & H2 & H3 & _ & Hx & Hz & Hzz & _).
  assert (Hin1 : (c1, attr1) ∈ raw_arrays z x zz m)
    by (eapply list_elem_of_lookup_2, Ha).
  assert (Hin2 : (c2, attr2) ∈ raw_arrays z x zz m)
    by (eapply list_elem_of_lookup_2, Hb).
  assert (Hold1 : Obj s1 ∈ c1 → obj_id s1 < lo) by (apply (Hwf _ _ _ Hin1)).
  assert (Hold2 : Obj s2 ∈ c2 → obj_id s2 < lo) by (apply (Hwf _ _ _ Hin2)).
  pose proof (normalised_entry_origin _ _ _ _ s1 Hx) as Ox1.
  pose proof (normalised_entry_origin _ _ _ _ s1 Hz) as Oz1.
  pose proof (normalised_entry_origin _ _ _ _ s1 Hzz) as Ozz1.
  pose proof (normalised_entry_origin _ _ _ _ s2 Hx) as Ox2.
  pose proof (normalised_entry_origin _ _ _ _ s2 Hz) as Oz2.
  pose proof (normalised_entry_origin _ _ _ _ s2 Hzz) as Ozz2.
  unfold raw_arrays in Ha, Hb.
  destruct a as [|[|[|a]]]; simpl in Ha; try discriminate;
    injection Ha as <- <-;
    destruct b as [|[|[|b]]]; simpl in Hb; try discriminate;
    injection Hb as <- <-; try congruence;
    match goal with
    | O1 : Obj s1 ∈ ?f1 → _, O2 : Obj s2 ∈ ?f2 → _,
      I1 : Obj s1 ∈ ?f1, I2 : Obj s2 ∈ ?f2 |- _ =>
        destruct (O1 I1) as [?|?]; destruct (O2 I2) as [?|?];
        try (split; assumption);
        try (specialize (Hold1 ltac:(assumption)));
        try (specialize (Hold2 ltac:(assumption))); lia
    end.
Qed.

(** With a transitive [==], every position shares the object of a
    position that equals no earlier one and whose raw entry its own
    equals. *)
Lemma normalised_root c lo attribute next j :
  normalised c lo attribute next →
  eq_transitive_on Scalar_eq c →
  j < length c →
  ∃ r, r ≤ j ∧ last_eq Scalar_eq c r r = None ∧
       attribute !! j = attribute !! r ∧
       (r = j ∨ eq_at Scalar_eq c j r = true).
Proof.
  intros Hn Htrans. induction j as [j IH] using lt_wf_ind. intros Hj.
  destruct (last_eq Scalar_eq c j j) as [p|] eqn:Hlast.
  - pose proof (normalised_shared _ _ _ _ _ _ j p Hn Hlast) as Hsh.
    apply last_eq_Some in Hlast as (Hp & Hjp & _).
    destruct (IH p Hp) as (r & Hr & Hroot & Hpr & Hcase); [lia|].
    exists r. split; [lia|]. split; [assumption|]. split; [congruence|].
    right. destruct Hcase as [->|Hpr']; [assumption|].
    apply eq_at_lookup in Hjp as (u & v & Hu & Hv & Huv).
    apply eq_at_lookup in Hpr' as (v' & w & Hv' & Hw & Hvw).
    rewrite Hv in Hv'. injection Hv' as <-.
    apply eq_at_lookup. exists u, w. split; [assumption|]. split; [assumption|].
    apply (Htrans u v w); try assumption;
      eapply list_elem_of_lookup_2; eassumption.
  - exists j. split; [lia|]. split; [assumption|]. split; [reflexivity | now left].
Qed.

(** An array of [raw_arrays], with the identities of its wrapped
    positions. *)
Lemma raw_arrays_exact z x zz lo m next c attribute :
  __init__ Scalar_init Scalar_eq z x zz lo = Ok (m, next) →
  (c, attribute) ∈ raw_arrays z x zz m →
  ∃ lo' hi',
    lo ≤ lo' ∧ hi' ≤ next ∧
    normalised c lo' attribute hi' ∧
    ∀ j y, wrapped_at Scalar_eq c j = true → c !! j = Some (Num y) →
      attribute !! j
      = Some (Scalar_new Scalar_init y (lo' + wrapped_before Scalar_eq c j)).
Proof.
  intros Hinit Hin.
  destruct (init_ranges _ _ _ _ _ _ Hinit)
    as (n1 & n2 & H1 & H2 & H3 & _ & Hx & Hz & Hzz & _ & _ & _ & Hix & Hiz & Hizz).
  unfold raw_arrays in Hin. rewrite !elem_of_cons, elem_of_nil in Hin.
  destruct Hin as [[= -> ->]|[[= -> ->]|[[= -> ->]|[]]]].
  - exists n1, n2. split; [lia|]. split; [lia|]. now split.
  - exists lo, n1. split; [lia|]. split; [lia|]. now split.
  - exists n2, next. split; [lia|]. split; [lia|]. now split.
Qed.

(** X7. In an array of plain numbers, two normalised entries are one
    object exactly when the two numbers are equal: unequal numbers get
    different objects, and two [nan] never share. *)
Theorem plain_numbers_share_iff_equal z x zz lo m next c attribute i j y1 y2 :
  __init__ Scalar_init Scalar_eq z x zz lo = Ok (m, next) →
  (c, attribute) ∈ raw_arrays z x zz m →
  Forall (λ v, isinstance_Scalar v = false) c →
  i < j →
  c !! i = Some (Num y1) →
  c !! j = Some (Num y2) →
  (attribute !! i = attribute !! j ↔ number_eq y2 y1 = true).
Proof.
  intros Hinit Hin Hnum Hij Hi Hj.
  destruct (raw_arrays_exact _ _ _ _ _ _ _ _ Hinit Hin)
    as (lo' & hi' & _ & _ & Hn & Hids).
  pose proof (plain_numbers_symmetric Scalar_eq c Hnum) as Hsym.
  pose proof (plain_numbers_transitive Scalar_eq c Hnum) as Htrans.
  assert (Hli : i < length c) by (eapply lookup_lt_Some, Hi).
  assert (Hlj : j < length c) by (eapply lookup_lt_Some, Hj).
  split.
  - intros Hsame. destruct (number_eq y2 y1) eqn:E; [reflexivity|]. exfalso.
    assert (Hne : eq_at Scalar_eq c j i = false)
      by (unfold eq_at; now rewrite Hj, Hi).
    destruct (normalised_root c lo' attribute hi' i Hn Htrans Hli)
      as (ri & Hri & Hrooti & Hshi & Hcasei).
    destruct (normalised_root c lo' attribute hi' j Hn Htrans Hlj)
      as (rj & Hrj & Hrootj & Hshj & Hcasej).
    assert (Hwrapped : ∀ r, r < length c → last_eq Scalar_eq c r r = None →
              ∃ y, c !! r = Some (Num y) ∧
                   attribute !! r = Some (Scalar_new Scalar_init y
                     (lo' + wrapped_before Scalar_eq c r)) ∧
                   wrapped_at Scalar_eq c r = true).
    { intros r Hr Hroot. destruct (lookup_lt_is_Some_2 c r Hr) as [u Hu].
      pose proof (list_elem_of_lookup_2 _ _ _ Hu) as Hinu.
      rewrite Forall_forall in Hnum. specialize (Hnum u Hinu).
      destruct u as [y|?]; [|discriminate].
      assert (Hw : wrapped_at Scalar_eq c r = true)
        by (unfold wrapped_at; now rewrite Hu, Hroot).
      exists y. split; [assumption|]. split; [now apply Hids | assumption]. }
    destruct (Hwrapped ri) as (yi & Hyi & Hai & Hwi); [lia | assumption |].
    destruct (Hwrapped rj) as (yj & Hyj & Haj & Hwj); [lia | assumption |].
    assert (Hrr : ri ≠ rj).
    { intros ->. destruct Hcasei as [->|Hei].
      - destruct Hcasej as [->|Hej]; [lia | congruence].
      - destruct Hcasej as [->|Hej]; [lia|].
        apply eq_at_lookup in Hei as (u & w & Hu & Hw & Huw).
        apply eq_at_lookup in Hej as (v & w' & Hv & Hw' & Hvw).
        rewrite Hw in Hw'. injection Hw' as <-.
        rewrite Hi in Hu. injection Hu as <-.
        rewrite Hj in Hv. injection Hv as <-.
        assert (py_eq (Num y2) (Num y1) = true); [|simpl in *; congruence].
        apply (Htrans _ w _); try (eapply list_elem_of_lookup_2; eassumption);
          [assumption|].
        apply Hsym; try (eapply list_elem_of_lookup_2; eassumption). assumption. }
    rewrite Hshi, Hshj, Hai, Haj in Hsame. injection Hsame as Hideq Hsteq.
    destruct (decide (ri < rj)).
    + pose proof (wrapped_before_lt Scalar_eq c ri rj ltac:(lia) Hwi). lia.
    + pose proof (wrapped_before_lt Scalar_eq c rj ri ltac:(lia) Hwj). lia.
  - intros Heq. symmetry.
    apply (normalised_shares Scalar_init Scalar_eq c lo' attribute hi' Hn Hsym
             Htrans j i _ _ Hij Hi Hj Heq).
Qed.

End Objects.

(** *** A parameter of the wrong size *)

Section Sizes.

Context {ScalarState : Type}.
Variable Scalar_init : number → ScalarState.
Variable Scalar_eq : Scalar ScalarState → value ScalarState → bool.

Local Abbreviation value := (value ScalarState).

Lemma for_each_cons {S} i (r : list nat) (body : nat → S → outcome S) s :
  for_each (i :: r) body s = (body i s ≫= for_each r body).
Proof. reflexivity. Qed.

(** X8. [_determine_L] is what keeps the loops in range: called on its
    own with a non-empty parameter shorter than [array_size],
    [_construct_attribute] raises [IndexError] when the inner loop of the
    first round reaches the end of the parameter. *)
Theorem short_parameter_raises self_L (c : list value) array_size lo :
  c ≠ [] →
  length c < array_size →
  length c ≤ self_L →
  _construct_attribute Scalar_init Scalar_eq self_L (Some c) array_size lo
    = Raise list_index_out_of_range.
Proof.
  intros Hc Hshort HL.
  assert (Hpos : 0 < length c) by (destruct c; [congruence | simpl; lia]).
  unfold _construct_attribute. rewrite (default_param_Some c array_size Hc).
  rewrite (range_lt 0 array_size), for_each_cons by lia.
  assert (Hbody : construct_body Scalar_init Scalar_eq c array_size 0
                    (c, replicate self_L false, lo)
                  = Raise list_index_out_of_range); [|now rewrite Hbody].
  destruct (lookup_lt_is_Some_2 c 0 Hpos) as [a1 Ha1].
  destruct (wrap_step_spec Scalar_init c 0 a1 lo Ha1)
    as (attr1 & next1 & ak & Hwrap & Hlen1 & _ & Hak & _).
  unfold construct_body. rewrite Hwrap, bind_Ok. cbn beta iota.
  rewrite (range_split (0 + 1) (length c) array_size) by lia.
  rewrite for_each_app.
  destruct (share_loop Scalar_eq c attr1 (replicate self_L false) 0 ak)
    as (attr2 & flags2 & Hshare & _);
    [assumption | rewrite length_replicate; lia | assumption |].
  rewrite Hshare, bind_Ok.
  rewrite (range_lt (length c) array_size), for_each_cons by lia.
  assert (Hstep : share_body Scalar_eq c 0 (length c) (attr2, flags2)
                  = Raise list_index_out_of_range); [|now rewrite Hstep].
  unfold share_body, getitem.
  rewrite (lookup_ge_None_2 c (length c)) by lia. reflexivity.
Qed.

End Sizes.

(** *** More on the table of equal transverse fields *)

Section Table.

Context {ScalarState : Type}.
Variable Scalar_init : number → ScalarState.
Variable Scalar_eq : Scalar ScalarState → value ScalarState → bool.

Local Abbreviation value := (value ScalarState).
Local Abbreviation py_eq := (py_eq Scalar_eq).
Local Abbreviation table := _map_btwn_site_indices_and_unique_x_fields.

Lemma map_entry_le z x zz lo m next r :
  __init__ Scalar_init Scalar_eq z x zz lo = Ok (m, next) →
  r < L m →
  ∃ i, table m !! r = Some i ∧ i ≤ r.
Proof.
  intros Hinit. induction r as [r IH] using lt_wf_ind. intros Hr.
  destruct (map_recurrence _ _ z x zz lo m next r Hinit Hr) as (_ & _ & Hrec).
  destruct (last_eq Scalar_eq (x_fields m) r r) as [p|] eqn:Hlast.
  - apply last_eq_Some in Hlast as (Hp & _).
    destruct (IH p Hp) as (i & Hi & Hle); [lia|].
    exists i. rewrite Hrec. split; [assumption | lia].
  - exists r. split; [assumption | lia].
Qed.

(** With an equality by value on the normalised x-fields, the entry of a
    site is the first site with an equal field. *)
Lemma map_entry_first z x zz lo m next r xr :
  __init__ Scalar_init Scalar_eq z x zz lo = Ok (m, next) →
  eq_reflexive_on Scalar_eq (x_fields m) →
  eq_symmetric_on Scalar_eq (x_fields m) →
  eq_transitive_on Scalar_eq (x_fields m) →
  x_fields m !! r = Some xr →
  ∃ i xi,
    table m !! r = Some i ∧ i ≤ r ∧ x_fields m !! i = Some xi ∧
    py_eq xr xi = true ∧
    ∀ i' xi', i' < i → x_fields m !! i' = Some xi' → py_eq xr xi' = false.
Proof.
  intros Hinit Hrefl Hsym Htrans. revert xr.
  induction r as [r IH] using lt_wf_ind. intros xr Hxr.
  assert (Hr : r < L m).
  { destruct (init_inv _ _ _ _ _ _ _ _ Hinit) as (HL & n1 & n2 & Hx & _).
    destruct (determine_L_sizes _ _ _ _ HL) as (_ & _ & Hlx & _).
    rewrite <- Hlx, <- (normalised_length _ _ _ _ _ _ Hx).
    eapply lookup_lt_Some, Hxr. }
  destruct (map_recurrence _ _ z x zz lo m next r Hinit Hr) as (_ & _ & Hrec).
  assert (Hinr : xr ∈ x_fields m) by (eapply list_elem_of_lookup_2, Hxr).
  destruct (last_eq Scalar_eq (x_fields m) r r) as [p|] eqn:Hlast.
  - apply last_eq_Some in Hlast as (Hp & Hrp & _).
    apply eq_at_lookup in Hrp as (xr' & xp & Hxr' & Hxp & Hrp).
    rewrite Hxr in Hxr'. injection Hxr' as <-.
    assert (Hinp : xp ∈ x_fields m) by (eapply list_elem_of_lookup_2, Hxp).
    destruct (IH p Hp xp Hxp) as (i & xi & Hi & Hle & Hxi & Hpi & Hmin).
    assert (Hini : xi ∈ x_fields m) by (eapply list_elem_of_lookup_2, Hxi).
    exists i, xi. rewrite Hrec.
    split; [assumption|]. split; [lia|]. split; [assumption|].
    split; [eapply (Htrans xr xp xi); assumption|].
    intros i' xi' Hi' Hxi'.
    assert (Hini' : xi' ∈ x_fields m) by (eapply list_elem_of_lookup_2, Hxi').
    destruct (py_eq xr xi') eqn:E; [|reflexivity].
    rewrite <- (Hmin i' xi' Hi' Hxi'). symmetry.
    apply (Htrans xp xr xi'); auto.
  - exists r, xr. split; [assumption|]. split; [lia|]. split; [assumption|].
    split; [auto|].
    intros i' xi' Hi' Hxi'.
    pose proof (proj1 (last_eq_None _ _ _ _) Hlast i' Hi') as Hne.
    unfold eq_at in Hne. now rewrite Hxr, Hxi' in Hne.
Qed.

(** X9. With an equality by value on the normalised x-fields (reflexive,
    symmetric, transitive), two sites have the same entry in the table
    exactly when their x-fields are equal. *)
Theorem table_partitions_sites z x zz lo m next i j u v :
  __init__ Scalar_init Scalar_eq z x zz lo = Ok (m, next) →
  eq_reflexive_on Scalar_eq (x_fields m) →
  eq_symmetric_on Scalar_eq (x_fields m) →
  eq_transitive_on Scalar_eq (x_fields m) →
  x_fields m !! i = Some u →
  x_fields m !! j = Some v →
  (table m !! i = table m !! j ↔ py_eq u v = true).
Proof.
  intros Hinit Hrefl Hsym Htrans Hu Hv.
  assert (Hinu : u ∈ x_fields m) by (eapply list_elem_of_lookup_2, Hu).
  assert (Hinv : v ∈ x_fields m) by (eapply list_elem_of_lookup_2, Hv).
  destruct (map_entry_first z x zz lo m next i u Hinit Hrefl Hsym Htrans Hu)
    as (a & xa & Ha & _ & Hxa & Hua & Hmina).
  destruct (map_entry_first z x zz lo m next j v Hinit Hrefl Hsym Htrans Hv)
    as (b & xb & Hb & _ & Hxb & Hvb & Hminb).
  assert (Hina : xa ∈ x_fields m) by (eapply list_elem_of_lookup_2, Hxa).
  assert (Hinb : xb ∈ x_fields m) by (eapply list_elem_of_lookup_2, Hxb).
  rewrite Ha, Hb. split.
  - intros [= ->]. rewrite Hxa in Hxb. injection Hxb as <-.
    apply (Htrans u xa v); auto.
  - intros Huv. f_equal.
    assert (Hub : py_eq u xb = true) by (apply (Htrans u v xb); auto).
    assert (Hva : py_eq v xa = true) by (apply (Htrans v u xa); auto).
    destruct (decide (a < b)) as [Hlt|Hge].
    + rewrite (Hminb a xa Hlt Hxa) in Hva. discriminate.
    + destruct (decide (b < a)) as [Hlt|Hge']; [|lia].
      rewrite (Hmina b xb Hlt Hxb) in Hub. discriminate.
Qed.

(** X10. Whatever [Scalar.__eq__] is, the table is [[0, 1, ..., L-1]]
    exactly when no normalised x-field equals the x-field of an earlier
    site. *)
Theorem table_identity_iff z x zz lo m next :
  __init__ Scalar_init Scalar_eq z x zz lo = Ok (m, next) →
  (table m = seq 0 (L m) ↔
   ∀ i j u v, i < j → x_fields m !! i = Some u → x_fields m !! j = Some v →
     py_eq v u = false).
Proof.
  intros Hinit.
  assert (Hlen : length (x_fields m) = L m ∧ length (table m) = L m).
  { destruct (init_inv _ _ _ _ _ _ _ _ Hinit) as (HL & n1 & n2 & Hx & _ & _ & Hl & _).
    destruct (determine_L_sizes _ _ _ _ HL) as (_ & _ & Hlx & _).
    rewrite (normalised_length _ _ _ _ _ _ Hx) in Hl.
    rewrite (normalised_length _ _ _ _ _ _ Hx). split; congruence. }
  destruct Hlen as [Hlx Hlt]. split.
  - intros Hid i j u v Hij Hu Hv.
    assert (Hj : j < L m) by (rewrite <- Hlx; eapply lookup_lt_Some, Hv).
    destruct (py_eq v u) eqn:E; [exfalso | reflexivity].
    destruct (map_recurrence _ _ z x zz lo m next j Hinit Hj) as (_ & _ & Hrec).
    destruct (last_eq Scalar_eq (x_fields m) j j) as [p|] eqn:Hlast.
    + apply last_eq_Some in Hlast as (Hp & _).
      destruct (map_entry_le z x zz lo m next p Hinit) as (k & Hk & Hle); [lia|].
      rewrite Hk, Hid, lookup_seq_lt in Hrec by lia.
      injection Hrec as <-. lia.
    + pose proof (proj1 (last_eq_None _ _ _ _) Hlast i Hij) as Hne.
      unfold eq_at in Hne. rewrite Hv, Hu in Hne. congruence.
  - intros Hno. apply list_eq. intros r.
    destruct (decide (r < L m)) as [Hr|Hr].
    + destruct (map_recurrence _ _ z x zz lo m next r Hinit Hr) as (_ & _ & Hrec).
      rewrite lookup_seq_lt by assumption.
      replace (last_eq Scalar_eq (x_fields m) r r) with (@None nat) in Hrec;
        [assumption|].
      symmetry. apply last_eq_None. intros i Hi. unfold eq_at.
      destruct (x_fields m !! r) as [v|] eqn:Hv; [|reflexivity].
      destruct (x_fields m !! i) as [u|] eqn:Hu; [|reflexivity]. eauto.
    + rewrite lookup_ge_None_2 by lia.
      symmetry. apply lookup_ge_None_2. rewrite length_seq. lia.
Qed.

Lemma number_eq_congr_l a b y :
  number_eq a b = true → number_eq a y = number_eq b y.
Proof.
  intros Hab. apply eq_true_iff_eq. split; intros H.
  - apply (number_eq_trans b a y); [now rewrite number_eq_sym | assumption].
  - apply (number_eq_trans a b y); assumption.
Qed.

Lemma number_eq_congr_r a b y :
  number_eq a b = true → number_eq y a = number_eq y b.
Proof.
  intros Hab. rewrite (number_eq_sym y a), (number_eq_sym y b).
  now apply number_eq_congr_l.
Qed.

Lemma last_eq_ext (c c' : list value) j k :
  (∀ i, i < k → eq_at Scalar_eq c j i = eq_at Scalar_eq c' j i) →
  last_eq Scalar_eq c j k = last_eq Scalar_eq c' j k.
Proof.
  induction k as [|k IH]; intros H; simpl; [reflexivity|].
  rewrite <- (H k) by lia. rewrite IH; [reflexivity|]. intros i Hi. apply H. lia.
Qed.

(** The plain numbers among the entries of an array. *)
Definition numbers_of (c : list value) : list number :=
  omap (λ v, match v with Num y => Some y | Obj _ => None end) c.

Lemma elem_of_numbers_of (c : list value) j y :
  c !! j = Some (Num y) → y ∈ numbers_of c.
Proof.
  intros Hj. unfold numbers_of. apply list_elem_of_omap.
  exists (Num y). split; [eapply list_elem_of_lookup_2, Hj | reflexivity].
Qed.

(** In a normalised array of plain numbers, each entry is an instance
    made from a number equal to the raw entry. *)
Lemma normalised_numbers_entry c lo attribute next j yj :
  normalised Scalar_init Scalar_eq c lo attribute next →
  Forall (λ v, isinstance_Scalar v = false) c →
  c !! j = Some (Num yj) →
  ∃ r yr id,
    c !! r = Some (Num yr) ∧
    attribute !! j = Some (Scalar_new Scalar_init yr id) ∧
    (∀ y, number_eq yj y = number_eq yr y) ∧
    (∀ y, number_eq y yj = number_eq y yr).
Proof.
  intros Hn Hnum Hj.
  assert (Hlt : j < length c) by (eapply lookup_lt_Some, Hj).
  destruct (normalised_root Scalar_init Scalar_eq c lo attribute next j Hn
              (plain_numbers_transitive Scalar_eq c Hnum) Hlt)
    as (r & Hr & Hroot & Hsh & Hcase).
  assert (Hrl : r < length c) by lia.
  destruct (lookup_lt_is_Some_2 c r Hrl) as [u Hu].
  pose proof (list_elem_of_lookup_2 _ _ _ Hu) as Hinu.
  rewrite Forall_forall in Hnum. specialize (Hnum u Hinu).
  destruct u as [yr|?]; [|discriminate].
  pose proof (normalised_owned _ _ _ _ _ _ r Hn Hrl Hroot) as Ho.
  unfold owned in Ho. rewrite Hu in Ho. destruct Ho as (id & _ & Hid).
  exists r, yr, id. split; [assumption|]. split; [congruence|].
  destruct Hcase as [->|He].
  - rewrite Hj in Hu. injection Hu as ->. split; reflexivity.
  - unfold eq_at in He. rewrite Hj, Hu in He. simpl in He.
    split; intros y; [now apply number_eq_congr_l | now apply number_eq_congr_r].
Qed.

(** X11. From the raw x-fields to the table, for plain numbers and a class
    [Scalar] whose instances made from these numbers compare by value:
    the entry of site [j] is the first site whose raw x-field equals that
    of [j], and [j] itself when there is none (as for every [nan]). *)
Theorem table_of_plain_numbers z x zz lo m next j yj :
  __init__ Scalar_init Scalar_eq z x zz lo = Ok (m, next) →
  Forall (λ v, isinstance_Scalar v = false) (default_param x (L m)) →
  constants_compare_by_value Scalar_init Scalar_eq
    (numbers_of (default_param x (L m))) →
  default_param x (L m) !! j = Some (Num yj) →
  ∃ i yi,
    table m !! j = Some i ∧ i ≤ j ∧
    default_param x (L m) !! i = Some (Num yi) ∧
    (i = j ∨ number_eq yj yi = true) ∧
    ∀ i' y', i' < i → default_param x (L m) !! i' = Some (Num y') →
             number_eq yj y' = false.
Proof.
  intros Hinit Hnum Hcmp. set (c := default_param x (L m)) in *.
  destruct (init_inv _ _ _ _ _ _ _ _ Hinit) as (HL & n1 & n2 & Hx & _).
  fold c in Hx.
  destruct (determine_L_sizes _ _ _ _ HL) as (_ & _ & Hlx & _). fold c in Hlx.
  assert (Heq : ∀ a b ya yb, c !! a = Some (Num ya) → c !! b = Some (Num yb) →
            eq_at Scalar_eq (x_fields m) a b = number_eq ya yb).
  { intros a b ya yb Ha Hb.
    destruct (normalised_numbers_entry c lo (x_fields m) n1 a ya Hx Hnum Ha)
      as (ra & yra & ida & Hra & Hxa & Hla & _).
    destruct (normalised_numbers_entry c lo (x_fields m) n1 b yb Hx Hnum Hb)
      as (rb & yrb & idb & Hrb & Hxb & _ & Hrb').
    unfold eq_at. rewrite Hxa, Hxb. unfold Scalar_new. simpl.
    rewrite Hcmp by (eapply elem_of_numbers_of; eassumption).
    now rewrite <- Hla, <- Hrb'. }
  assert (Hlast : ∀ a, a < L m →
            last_eq Scalar_eq (x_fields m) a a = last_eq Scalar_eq c a a).
  { intros a Ha. apply last_eq_ext. intros b Hb.
    destruct (lookup_lt_is_Some_2 c a) as [u Hu]; [lia|].
    destruct (lookup_lt_is_Some_2 c b) as [w Hw]; [lia|].
    rewrite Forall_forall in Hnum.
    pose proof (Hnum u (list_elem_of_lookup_2 _ _ _ Hu)) as Hu'.
    pose proof (Hnum w (list_elem_of_lookup_2 _ _ _ Hw)) as Hw'.
    destruct u as [ya|?], w as [yb|?]; try discriminate.
    rewrite (Heq a b ya yb Hu Hw). unfold eq_at. now rewrite Hu, Hw. }
  revert yj. induction j as [j IH] using lt_wf_ind. intros yj Hj.
  assert (Hjl : j < L m) by (rewrite <- Hlx; eapply lookup_lt_Some, Hj).
  destruct (map_recurrence _ _ z x zz lo m next j Hinit Hjl) as (_ & _ & Hrec).
  rewrite (Hlast j Hjl) in Hrec.
  destruct (last_eq Scalar_eq c j j) as [p|] eqn:Hl.
  - apply last_eq_Some in Hl as (Hp & Hjp & _).
    apply eq_at_lookup in Hjp as (u & w & Hu & Hw & Huw).
    rewrite Hj in Hu. injection Hu as <-.
    rewrite Forall_forall in Hnum.
    pose proof (Hnum w (list_elem_of_lookup_2 _ _ _ Hw)) as Hw'.
    destruct w as [yp|?]; [|discriminate]. simpl in Huw.
    destruct (IH p Hp yp Hw) as (i & yi & Hi & Hle & Hci & Hcase & Hmin).
    exists i, yi. rewrite Hrec. split; [assumption|]. split; [lia|].
    split; [assumption|]. split.
    + right. destruct Hcase as [->|Hpi].
      * rewrite Hw in Hci. now injection Hci as <-.
      * now rewrite (number_eq_congr_l yj yp yi Huw).
    + intros i' y' Hi' Hy'. rewrite (number_eq_congr_l yj yp y' Huw). eauto.
  - exists j, yj. split; [assumption|]. split; [lia|]. split; [assumption|].
    split; [now left|]. intros i' y' Hi' Hy'.
    pose proof (proj1 (last_eq_None _ _ _ _) Hl i' Hi') as Hne.
    unfold eq_at in Hne. now rewrite Hj, Hy' in Hne.
Qed.

End Table.

(** *** Building an instance again from its own attributes *)

Section Again.

Context {ScalarState : Type}.
Variable Scalar_init : number → ScalarState.
Variable Scalar_eq : Scalar ScalarState → value ScalarState → bool.

Local Abbreviation value := (value ScalarState).
Local Abbreviation py_eq := (py_eq Scalar_eq).
Local Abbreviation normalised := (normalised Scalar_init Scalar_eq).

(** In a normalised array of plain numbers whose instances compare by
    value, two entries are equal when the two raw numbers are. *)
Lemma normalised_numbers_eq_at c lo attribute next a b :
  normalised c lo attribute next →
  Forall (λ v, isinstance_Scalar v = false) c →
  constants_compare_by_value Scalar_init Scalar_eq (numbers_of c) →
  eq_at Scalar_eq attribute a b = eq_at Scalar_eq c a b.
Proof.
  intros Hn Hnum Hcmp.
  pose proof (normalised_length _ _ _ _ _ _ Hn) as Hlen.
  destruct (c !! a) as [u|] eqn:Hu; cycle 1.
  { unfold eq_at. rewrite Hu.
    rewrite (lookup_ge_None_2 attribute a); [reflexivity|].
    rewrite Hlen. now apply lookup_ge_None_1. }
  destruct (c !! b) as [w|] eqn:Hw; cycle 1.
  { unfold eq_at. rewrite Hu, Hw.
    rewrite (lookup_ge_None_2 attribute b);
      [now destruct (attribute !! a) |].
    rewrite Hlen. now apply lookup_ge_None_1. }
  pose proof Hnum as Hnum'. rewrite Forall_forall in Hnum'.
  pose proof (Hnum' u (list_elem_of_lookup_2 _ _ _ Hu)) as Hu'.
  pose proof (Hnum' w (list_elem_of_lookup_2 _ _ _ Hw)) as Hw'.
  destruct u as [ya|?], w as [yb|?]; try discriminate.
  destruct (normalised_numbers_entry Scalar_init Scalar_eq c lo attribute next
              a ya Hn Hnum Hu) as (ra & yra & ida & Hra & Hxa & Hla & _).
  destruct (normalised_numbers_entry Scalar_init Scalar_eq c lo attribute next
              b yb Hn Hnum Hw) as (rb & yrb & idb & Hrb & Hxb & _ & Hrb').
  unfold eq_at. rewrite Hxa, Hxb, Hu, Hw. unfold Scalar_new. simpl.
  rewrite Hcmp by (eapply elem_of_numbers_of; eassumption).
  now rewrite <- Hla, <- Hrb'.
Qed.

(** Normalising such a normalised array again gives it back. *)
Lemma normalised_again c lo attribute next lo' attribute' next' :
  normalised c lo attribute next →
  Forall (λ v, isinstance_Scalar v = false) c →
  constants_compare_by_value Scalar_init Scalar_eq (numbers_of c) →
  normalised attribute lo' attribute' next' →
  attribute' = attribute.
Proof.
  intros Hn Hnum Hcmp Hn'.
  pose proof (normalised_length _ _ _ _ _ _ Hn') as Hlen'.
  apply list_eq. intros j.
  destruct (decide (j < length attribute)) as [Hj|Hj]; cycle 1.
  { rewrite !lookup_ge_None_2 by lia. reflexivity. }
  induction j as [j IH] using lt_wf_ind.
  assert (Hlast : last_eq Scalar_eq attribute j j = last_eq Scalar_eq c j j).
  { apply last_eq_ext. intros i _. now apply (normalised_numbers_eq_at c lo _ next). }
  destruct (last_eq Scalar_eq c j j) as [p|] eqn:Hl.
  - rewrite (normalised_shared _ _ _ _ _ _ j p Hn' Hlast).
    rewrite (normalised_shared _ _ _ _ _ _ j p Hn Hl).
    apply last_eq_Some in Hl as (Hp & _). apply IH; lia.
  - pose proof (normalised_owned _ _ _ _ _ _ j Hn' Hj Hlast) as Ho.
    destruct (normalised_Obj _ _ _ _ _ _ j Hn) as [s Hs].
    { rewrite <- (normalised_length _ _ _ _ _ _ Hn). assumption. }
    unfold owned in Ho. rewrite Hs in Ho. congruence.
Qed.

(** X12. For parameters of plain numbers and a class [Scalar] whose
    instances made from these numbers compare by value, normalisation is
    idempotent: the constructor called on the three attributes of an
    instance returns an equal instance, with the same objects, and makes
    no new object. *)
Theorem init_again z x zz lo m next lo' :
  __init__ Scalar_init Scalar_eq z x zz lo = Ok (m, next) →
  (∀ c attribute, (c, attribute) ∈ raw_arrays z x zz m →
     Forall (λ v, isinstance_Scalar v = false) c ∧
     constants_compare_by_value Scalar_init Scalar_eq (numbers_of c)) →
  __init__ Scalar_init Scalar_eq
    (Some (z_fields m)) (Some (x_fields m)) (Some (zz_couplers m)) lo'
  = Ok (m, lo').
Proof.
  intros Hinit Hnum.
  destruct (init_ranges _ _ _ _ _ _ _ _ Hinit)
    as (n1 & n2 & _ & _ & _ & (Hlx & Hlz & Hlzz) & Hx & Hz & Hzz & _).
  destruct (init_calls _ _ _ _ _ _ _ _ Hinit) as (_ & _ & HL & _ & _ & _ & Hmap).
  destruct (determine_L_sizes _ _ _ _ HL) as (Hpos & _).
  pose proof (normalised_length _ _ _ _ _ _ Hx) as Hax. rewrite Hlx in Hax.
  pose proof (normalised_length _ _ _ _ _ _ Hz) as Haz. rewrite Hlz in Haz.
  pose proof (normalised_length _ _ _ _ _ _ Hzz) as Hazz. rewrite Hlzz in Hazz.
  set (z' := Some (z_fields m)). set (x' := Some (x_fields m)).
  set (zz' := Some (zz_couplers m)).
  assert (Himp : ∀ (a : list value) e n,
            length a + e = L m → implied (Some a) e = Some n → n = L m).
  { intros a e n Ha. unfold implied. case_bool_decide; [|discriminate].
    intros [= <-]. assumption. }
  assert (HL' : _determine_L z' x' zz' = Ok (L m)).
  { apply determine_L_unique.
    - right. left. unfold x', implied. rewrite bool_decide_eq_true_2 by lia.
      f_equal. lia.
    - intros n [H|[H|H]].
      + apply (Himp (z_fields m) 0 n); [lia | exact H].
      + apply (Himp (x_fields m) 0 n); [lia | exact H].
      + unfold zz', implied in H. case_bool_decide; [|discriminate].
        injection H as <-. lia. }
  destruct (init_Ok Scalar_init Scalar_eq z' x' zz' lo' (L m) HL')
    as (m' & next' & Hinit' & _).
  rewrite Hinit'. f_equal.
  destruct (init_ranges _ _ _ _ _ _ _ _ Hinit')
    as (k1 & k2 & _ & _ & _ & _ & Hx' & Hz' & Hzz' & Hk1 & Hk2 & Hk3 & _).
  destruct (init_calls _ _ _ _ _ _ _ _ Hinit')
    as (_ & _ & HLm' & _ & _ & _ & Hmap').
  assert (HLeq : L m' = L m) by congruence.
  rewrite HLeq in *.
  assert (Hdef : ∀ (a : list value) n, length a = n →
            default_param (Some a) n = a).
  { intros a n Ha. destruct a as [|v a].
    - simpl in Ha. subst n. reflexivity.
    - now apply default_param_Some. }
  unfold x', z', zz' in *.
  rewrite (Hdef _ _ Hax) in Hx', Hk1. rewrite (Hdef _ _ Haz) in Hz', Hk2.
  rewrite (Hdef _ _ Hazz) in Hzz', Hk3.
  rewrite wrapped_before_Scalars in Hk1, Hk2, Hk3
    by (eapply normalised_Forall_Scalar; eassumption).
  assert (Hin : ∀ c a, (c, a) ∈ raw_arrays z x zz m →
            ∀ l a' h, normalised c l a h →
              ∀ l' h', normalised a l' a' h' → a' = a).
  { intros c a Hca l a' h Hn l' h' Hn'. destruct (Hnum c a Hca) as [Hc Hcmp].
    eapply normalised_again; eassumption. }
  assert (Ex : x_fields m' = x_fields m).
  { apply (Hin (default_param x (L m)) (x_fields m)) with lo n1 lo' k1;
      [unfold raw_arrays; rewrite !elem_of_cons; auto | assumption..]. }
  assert (Ez : z_fields m' = z_fields m).
  { apply (Hin (default_param z (L m)) (z_fields m)) with n1 n2 k1 k2;
      [unfold raw_arrays; rewrite !elem_of_cons; auto | assumption..]. }
  assert (Ezz : zz_couplers m' = zz_couplers m).
  { apply (Hin (default_param zz (L m - 1)) (zz_couplers m)) with n2 next k2 next';
      [unfold raw_arrays; rewrite !elem_of_cons; auto | assumption..]. }
  rewrite Ex, Hmap in Hmap'. injection Hmap' as Emap.
  f_equal; [|lia].
  destruct m, m'. simpl in *. congruence.
Qed.

End Again.

(** *** The further properties on the concrete class *)

Lemma spec_constants_compare_by_value cs :
  constants_compare_by_value constant spec_Scalar_eq cs.
Proof. intros i j c d _ _. reflexivity. Qed.

Lemma constructed_shape_witness :
  let z := Some [Num (py_float 1); Obj (mkScalar 0 (varying 7))] in
  let zz := Some [Num (PyInt 2)] in
  ∃ m next,
    __init__ constant spec_Scalar_eq z None zz 1 = Ok (m, next) ∧
    1 ≤ L m ∧
    length (x_fields m) = L m ∧
    length (z_fields m) = L m ∧
    length (zz_couplers m) = L m - 1 ∧
    length (_map_btwn_site_indices_and_unique_x_fields m) = L m ∧
    1 ≤ next.
Proof.
  intros z zz. eexists _, _. split; [vm_compute; reflexivity|].
  exact (constructed_shape constant spec_Scalar_eq z None zz 1 _ _ eq_refl).
Defined.

Lemma entries_come_from_the_parameter_witness :
  let c := [Num (py_float 5); Num (py_float 5)] in
  ∃ m next,
    __init__ constant spec_Scalar_eq (Some c) None None 0 = Ok (m, next) ∧
    ∃ v, z_fields m !! 1 = Some v ∧
    ∃ i u, i ≤ 1 ∧ c !! i = Some u ∧
      match u with
      | Obj s => v = Obj s
      | Num y => ∃ id, 0 ≤ id < next ∧ v = Scalar_new constant y id
      end.
Proof.
  intros c. eexists _, _. split; [vm_compute; reflexivity|].
  eexists. split; [reflexivity|].
  eapply (entries_come_from_the_parameter constant spec_Scalar_eq
            (Some c) None None 0 _ _ c).
  - reflexivity.
  - apply list_elem_of_here.
  - reflexivity.
Defined.

Lemma objects_made_witness :
  let x := Some [Num (py_float 1); Num (py_float 2); Num (py_float 1);
                 Num (py_float 3)] in
  ∃ m next,
    __init__ constant spec_Scalar_eq None x None 0 = Ok (m, next) ∧
    next = 5 ∧
    next = 0 + wrapped_before spec_Scalar_eq (default_param x (L m)) (L m)
             + wrapped_before spec_Scalar_eq (default_param None (L m)) (L m)
             + wrapped_before spec_Scalar_eq (default_param None (L m - 1))
                 (L m - 1) ∧
    next ≤ 0 + 3 * L m - 1.
Proof.
  intros x. eexists _, _. split; [vm_compute; reflexivity|].
  split; [reflexivity|].
  exact (objects_made constant spec_Scalar_eq None x None 0 _ _ eq_refl).
Defined.

Lemma Scalars_only_make_nothing_witness :
  let a := Obj (mkScalar 0 (varying 1)) in
  let b := Obj (mkScalar 1 (constant (py_float 2))) in
  let cz := [a; b] in
  let cx := [b; b] in
  let czz := [a] in
  ∃ m next,
    __init__ constant spec_Scalar_eq (Some cz) (Some cx) (Some czz) 2
      = Ok (m, next) ∧
    next = 2 ∧
    (∀ v, v ∈ z_fields m → v ∈ cz) ∧
    (∀ v, v ∈ x_fields m → v ∈ cx) ∧
    (∀ v, v ∈ zz_couplers m → v ∈ czz).
Proof.
  intros a b cz cx czz. eexists _, _. split; [vm_compute; reflexivity|].
  apply (Scalars_only_make_nothing constant spec_Scalar_eq cz cx czz 2 _ _
           eq_refl).
  - discriminate.
  - discriminate.
  - discriminate.
  - repeat constructor.
Defined.

Lemma no_sharing_across_attributes_witness :
  let s := mkScalar 0 (varying 1) in
  let c := [Obj s] in
  ∃ m next,
    __init__ constant spec_Scalar_eq (Some c) (Some c) None 1 = Ok (m, next) ∧
    Obj s ∈ z_fields m ∧
    Obj s ∈ x_fields m ∧
    Obj s ∈ c ∧ Obj s ∈ c.
Proof.
  intros s c. eexists _, _. split; [vm_compute; reflexivity|].
  assert (H1 : Obj s ∈ [Obj s]) by constructor.
  split; [exact H1|]. split; [exact H1|].
  apply (no_sharing_across_attributes constant spec_Scalar_eq
           (Some c) (Some c) None 1 _ _ 0 1 c [Obj s] c [Obj s] s s eq_refl).
  - intros c' a' s' Hin Hs'. unfold raw_arrays in Hin. simpl in Hin.
    rewrite !elem_of_cons, elem_of_nil in Hin.
    destruct Hin as [[= -> ->]|[[= -> ->]|[[= -> ->]|[]]]].
    + apply elem_of_cons in Hs' as [[= ->]|Hs']; [simpl; lia|].
      now apply elem_of_nil in Hs'.
    + apply elem_of_cons in Hs' as [[= ->]|Hs']; [simpl; lia|].
      now apply elem_of_nil in Hs'.
    + now apply elem_of_nil in Hs'.
  - reflexivity.
  - reflexivity.
  - lia.
  - exact H1.
  - exact H1.
  - reflexivity.
Defined.

Lemma plain_numbers_share_iff_equal_witness :
  let c := [Num (py_float 5); Num (PyInt 5); Num (py_float 3)] in
  ∃ m next,
    __init__ constant spec_Scalar_eq (Some c) None None 0 = Ok (m, next) ∧
    (z_fields m !! 0 = z_fields m !! 1 ↔
     number_eq (PyInt 5) (py_float 5) = true) ∧
    (z_fields m !! 1 = z_fields m !! 2 ↔
     number_eq (py_float 3) (PyInt 5) = true).
Proof.
  intros c. eexists _, _. split; [vm_compute; reflexivity|].
  assert (Hnum : Forall (λ v : value time_fn, isinstance_Scalar v = false) c)
    by (repeat constructor).
  split.
  - apply (plain_numbers_share_iff_equal constant spec_Scalar_eq
             (Some c) None None 0 _ _ c _ 0 1 _ _ eq_refl);
      [repeat constructor | exact Hnum | lia | reflexivity | reflexivity].
  - apply (plain_numbers_share_iff_equal constant spec_Scalar_eq
             (Some c) None None 0 _ _ c _ 1 2 _ _ eq_refl);
      [repeat constructor | exact Hnum | lia | reflexivity | reflexivity].
Defined.

Lemma short_parameter_raises_witness :
  let c := [Num (py_float 1)] in
  c ≠ [] ∧ length c < 3 ∧ length c ≤ 3 ∧
  _construct_attribute constant spec_Scalar_eq 3 (Some c) 3 0
    = Raise list_index_out_of_range.
Proof.
  intros c.
  assert (H1 : c ≠ []) by discriminate.
  assert (H2 : length c < 3) by (simpl; lia).
  assert (H3 : length c ≤ 3) by (simpl; lia).
  split; [exact H1|]. split; [exact H2|]. split; [exact H3|].
  exact (short_parameter_raises constant spec_Scalar_eq 3 c 3 0 H1 H2 H3).
Defined.

Lemma table_partitions_sites_witness :
  let x := Some [Num (py_float 1); Num (py_float 2); Num (py_float 1);
                 Num (py_float 3)] in
  ∃ m next,
    __init__ constant spec_Scalar_eq None x None 0 = Ok (m, next) ∧
    eq_reflexive_on spec_Scalar_eq (x_fields m) ∧
    ∃ u v,
      x_fields m !! 0 = Some u ∧
      x_fields m !! 2 = Some v ∧
      (_map_btwn_site_indices_and_unique_x_fields m !! 0
       = _map_btwn_site_indices_and_unique_x_fields m !! 2
       ↔ py_eq spec_Scalar_eq u v = true).
Proof.
  intros x. eexists _, _. split; [vm_compute; reflexivity|].
  match goal with
  | |- eq_reflexive_on _ ?l ∧ _ =>
      assert (Hrefl : eq_reflexive_on spec_Scalar_eq l)
  end.
  { intros u Hu. simpl in Hu.
    repeat (apply elem_of_cons in Hu as [->|Hu]; [reflexivity|]).
    now apply elem_of_nil in Hu. }
  split; [exact Hrefl|]. eexists _, _.
  split; [reflexivity|]. split; [reflexivity|].
  apply (table_partitions_sites constant spec_Scalar_eq None x None 0 _ _ 0 2
           _ _ eq_refl Hrefl).
  - apply spec_eq_symmetric.
  - apply spec_eq_transitive.
  - reflexivity.
  - reflexivity.
Defined.

Lemma table_identity_iff_witness :
  let x := Some [Num (py_float 1); Num (py_float 2)] in
  ∃ m next,
    __init__ constant spec_Scalar_eq None x None 0 = Ok (m, next) ∧
    _map_btwn_site_indices_and_unique_x_fields m = [0; 1] ∧
    (_map_btwn_site_indices_and_unique_x_fields m = seq 0 (L m) ↔
     ∀ i j u v, i < j → x_fields m !! i = Some u → x_fields m !! j = Some v →
       py_eq spec_Scalar_eq v u = false).
Proof.
  intros x. eexists _, _. split; [vm_compute; reflexivity|].
  split; [reflexivity|].
  exact (table_identity_iff constant spec_Scalar_eq None x None 0 _ _ eq_refl).
Defined.

Lemma table_of_plain_numbers_witness :
  let c := [Num (py_float 1); Num (py_float 2); Num (PyInt 1);
            Num (py_float 3)] in
  ∃ m next,
    __init__ constant spec_Scalar_eq None (Some c) None 0 = Ok (m, next) ∧
    default_param (Some c) (L m) !! 2 = Some (Num (PyInt 1)) ∧
    ∃ i yi,
      _map_btwn_site_indices_and_unique_x_fields m !! 2 = Some i ∧ i ≤ 2 ∧
      default_param (Some c) (L m) !! i = Some (Num yi) ∧
      (i = 2 ∨ number_eq (PyInt 1) yi = true) ∧
      ∀ i' y', i' < i → default_param (Some c) (L m) !! i' = Some (Num y') →
               number_eq (PyInt 1) y' = false.
Proof.
  intros c. eexists _, _. split; [vm_compute; reflexivity|].
  split; [reflexivity|].
  apply (table_of_plain_numbers constant spec_Scalar_eq None (Some c) None 0
           _ _ 2 (PyInt 1) eq_refl).
  - repeat constructor.
  - apply spec_constants_compare_by_value.
  - reflexivity.
Defined.

Lemma init_again_witness :
  let x := Some [Num (py_float 1); Num (py_float 2); Num (py_float 1)] in
  ∃ m next,
    __init__ constant spec_Scalar_eq None x None 0 = Ok (m, next) ∧
    __init__ constant spec_Scalar_eq
      (Some (z_fields m)) (Some (x_fields m)) (Some (zz_couplers m)) next
    = Ok (m, next).
Proof.
  intros x. eexists _, _. split; [vm_compute; reflexivity|].
  apply (init_again constant spec_Scalar_eq None x None 0 _ _ _ eq_refl).
  intros c a Hin. split; [|apply spec_constants_compare_by_value].
  unfold raw_arrays in Hin. simpl in Hin.
  rewrite !elem_of_cons, elem_of_nil in Hin.
  destruct Hin as [[= -> _]|[[= -> _]|[[= -> _]|[]]]]; repeat constructor.
Defined.

(** ** Elements that are already instances of [Scalar] *)

Section Prewrapped.

Context {ScalarState : Type}.
Variable Scalar_init : number → ScalarState.
Variable Scalar_eq : Scalar ScalarState → value ScalarState → bool.

Local Abbreviation value := (value ScalarState).
Local Abbreviation py_eq := (py_eq Scalar_eq).

(** C6. An element of a parameter that is already an instance [s] of
    [Scalar] is never passed to [Scalar(...)] again. Its normalised entry
    is [s] itself when [s] equals no earlier element, and is the entry of
    an earlier position whose element [s] equals when there is one. In
    both cases it is the same value, unmodified: when [==] is the
    equality by value of the spec (transitive on the elements of the
    parameter, and never true of an instance and a plain number), the
    entry is one of the caller's instances found in the parameter, [s]
    itself or an instance that [s] equals. *)
Theorem prewrapped_entry_keeps_its_value z x zz lo m next c attribute j s :
  __init__ Scalar_init Scalar_eq z x zz lo = Ok (m, next) →
  (Some c, attribute) ∈ arrays z x zz m →
  c !! j = Some (Obj s) →
  (∃ lo', lo ≤ lo' ∧ not_wrapped_at Scalar_init Scalar_eq (L m) c lo' j) ∧
  ((∀ i u, i < j → c !! i = Some u → py_eq (Obj s) u = false) →
   attribute !! j = Some (Obj s)) ∧
  (∀ i u, i < j → c !! i = Some u → py_eq (Obj s) u = true →
     ∃ p w, i ≤ p ∧ p < j ∧ c !! p = Some w ∧ py_eq (Obj s) w = true ∧
            attribute !! j = attribute !! p) ∧
  (eq_transitive_on Scalar_eq c →
   (∀ y, Num y ∈ c → py_eq (Obj s) (Num y) = false) →
   ∃ i t, i ≤ j ∧ c !! i = Some (Obj t) ∧ attribute !! j = Some (Obj t) ∧
          (i = j ∨ py_eq (Obj s) (Obj t) = true)).
Proof.
  intros Hinit Hin Hs.
  destruct (arrays_normalised _ _ _ _ _ _ _ _ _ _ Hinit Hin)
    as (n & lo' & hi' & _ & _ & _ & _ & Hn).
  rewrite default_param_Some in Hn by (intros ->; discriminate).
  assert (Hj : j < length c) by (eapply lookup_lt_Some, Hs).
  split; [eapply arrays_not_wrapped; eauto|].
  split; [|split].
  - intros Hfirst.
    apply (normalised_first Scalar_init Scalar_eq c lo' attribute hi' j
             (Obj s) Hn Hs Hfirst).
  - intros i u Hi Hu Hsu.
    assert (Hji : eq_at Scalar_eq c j i = true) by (apply eq_at_lookup; eauto).
    destruct (last_eq Scalar_eq c j j) as [p|] eqn:Hlast.
    + pose proof (normalised_shared _ _ _ _ _ _ j p Hn Hlast) as Hsh.
      apply last_eq_Some in Hlast as (Hp & He & Hlater).
      apply eq_at_lookup in He as (v & w & Hv & Hw & Hvw).
      rewrite Hs in Hv. injection Hv as <-.
      exists p, w. split.
      { destruct (decide (i ≤ p)) as [|Hgt]; [assumption|].
        rewrite Hlater in Hji by lia. discriminate. }
      auto.
    + rewrite (proj1 (last_eq_None _ _ _ _) Hlast i Hi) in Hji. discriminate.
  - intros Htrans Hnum.
    destruct (normalised_root Scalar_init Scalar_eq c lo' attribute hi' j
                Hn Htrans Hj) as (r & Hr & Hroot & Hsh & Hcase).
    assert (Hrl : r < length c) by lia.
    pose proof (normalised_owned _ _ _ _ _ _ r Hn Hrl Hroot) as Ho.
    unfold owned in Ho.
    destruct Hcase as [->|He].
    + rewrite Hs in Ho. exists j, s. split; [lia|]. split; [assumption|].
      split; [assumption | now left].
    + apply eq_at_lookup in He as (u & w & Hu & Hw & Huw).
      rewrite Hs in Hu. injection Hu as <-.
      rewrite Hw in Ho. destruct w as [y|t].
      * rewrite Hnum in Huw; [discriminate|]. eapply list_elem_of_lookup_2, Hw.
      * exists r, t. split; [assumption|]. split; [assumption|].
        split; [congruence | now right].
Qed.

End Prewrapped.

Lemma prewrapped_entry_keeps_its_value_witness :
  let s0 := mkScalar 0 (constant (PyInt 5)) in
  let s1 := mkScalar 1 (constant (py_float 5)) in
  let c := [Obj s0; Obj s1] in
  ∃ m next,
    __init__ constant spec_Scalar_eq (Some c) None None 2 = Ok (m, next) ∧
    c !! 1 = Some (Obj s1) ∧
    (∃ lo', 2 ≤ lo' ∧ not_wrapped_at constant spec_Scalar_eq (L m) c lo' 1) ∧
    (∃ p w, 0 ≤ p ∧ p < 1 ∧ c !! p = Some w ∧
            py_eq spec_Scalar_eq (Obj s1) w = true ∧
            z_fields m !! 1 = z_fields m !! p) ∧
    (∃ i t, i ≤ 1 ∧ c !! i = Some (Obj t) ∧ z_fields m !! 1 = Some (Obj t) ∧
            (i = 1 ∨ py_eq spec_Scalar_eq (Obj s1) (Obj t) = true)).
Proof.
  intros s0 s1 c. eexists _, _. split; [vm_compute; reflexivity|].
  split; [reflexivity|].
  lazymatch goal with |- context [L ?m] =>
    destruct (prewrapped_entry_keeps_its_value constant spec_Scalar_eq
                (Some c) None None 2 m _ c (z_fields m) 1 s1 eq_refl)
      as (Hwrap & _ & Hshare & Hvalue)
  end.
  - repeat constructor.
  - reflexivity.
  - split; [exact Hwrap|]. split.
    + apply (Hshare 0 (Obj s0)); [lia | reflexivity | reflexivity].
    + apply Hvalue; [apply spec_eq_transitive | reflexivity].
Defined.

(** ** Parameters that are lists or tuples *)

(** The documentation of [Model] takes each of the three parameters as
    [array_like]. The sequences of Python itself that a caller can pass are
    a [list] and a [tuple]; the methods are written out here for both, with
    the same statements as above. *)
Module ArrayLike.

Section Model.

Context {ScalarState : Type}.
Variable Scalar_init : number → ScalarState.
Variable Scalar_eq : Scalar ScalarState → value ScalarState → bool.

Local Abbreviation value := (value ScalarState).
Local Abbreviation py_eq := (py_eq Scalar_eq).

Inductive array_like : Type :=
  | PyList (elems : list value)
  | PyTuple (elems : list value).

Definition items (a : array_like) : list value :=
  match a with
  | PyList elems => elems
  | PyTuple elems => elems
  end.

Definition tuple_index_out_of_range : exn :=
  IndexError "tuple index out of range".

Definition tuple_item_assignment : exn :=
  TypeError "'tuple' object does not support item assignment".

(** [len(a)]. *)
Definition len (a : array_like) : nat := length (items a).

(** [a[i]] for [i >= 0]. *)
Definition item (a : array_like) (i : nat) : outcome value :=
  match a with
  | PyList elems => getitem elems i
  | PyTuple elems =>
      match elems !! i with
      | Some x => Ok x
      | None => Raise tuple_index_out_of_range
      end
  end.

(** [a[i] = v] for [i >= 0]: the new contents of a list; a tuple has no
    item assignment, whatever [i] is. *)
Definition set_item (a : array_like) (i : nat) (v : value)
    : outcome array_like :=
  match a with
  | PyList elems => elems ← setitem elems i v; Ok (PyList elems)
  | PyTuple _ => Raise tuple_item_assignment
  end.

(** [a[:]]: a list of the same elements for a list, a tuple of the same
    elements for a tuple. *)
Definition slice_all (a : array_like) : array_like :=
  match a with
  | PyList elems => PyList elems
  | PyTuple elems => PyTuple elems
  end.

Record Model : Type := mkModel {
  L : nat;
  x_fields : array_like;
  z_fields : array_like;
  zz_couplers : array_like;
  _map_btwn_site_indices_and_unique_x_fields : list nat
}.

(** [candidate_Ls.add(n)] guarded by the two tests on the parameter; a
    list or a tuple is never equal to [None]. *)
Definition add_candidate (param : option array_like) (extra : nat)
    (candidate_Ls : gset nat) : gset nat :=
  match param with
  | None => candidate_Ls
  | Some a =>
      if bool_decide (len a ≠ 0) then candidate_Ls ∪ {[ len a + extra ]}
      else candidate_Ls
  end.

Definition candidates (z_fields x_fields zz_couplers : option array_like)
    : gset nat :=
  add_candidate zz_couplers 1
    (add_candidate x_fields 0 (add_candidate z_fields 0 ∅)).

Definition _determine_L (z_fields x_fields zz_couplers : option array_like)
    : outcome nat :=
  let candidate_Ls := candidates z_fields x_fields zz_couplers in
  if bool_decide (size candidate_Ls = 0) then Ok 1
  else if bool_decide (size candidate_Ls ≠ 1) then Raise incompatible_dimensions
  else set_pop candidate_Ls.

Definition share_body (ctor_param : array_like) (idx1 idx2 : nat)
    (st : array_like * list bool) : outcome (array_like * list bool) :=
  let '(attribute, elem_already_set) := st in
  c2 ← item ctor_param idx2;
  c1 ← item ctor_param idx1;
  if py_eq c2 c1 then
    a1 ← item attribute idx1;
    attribute ← set_item attribute idx2 a1;
    elem_already_set ← setitem elem_already_set idx2 true;
    Ok (attribute, elem_already_set)
  else Ok st.

(** The wrapping statement: [Scalar(...)] is evaluated, then assigned. *)
Definition wrap_step (idx1 : nat) (st : array_like * nat)
    : outcome (array_like * nat) :=
  let '(attribute, next) := st in
  a1 ← item attribute idx1;
  match a1 with
  | Obj _ => Ok st
  | Num x =>
      attribute ← set_item attribute idx1 (Scalar_new Scalar_init x next);
      Ok (attribute, S next)
  end.

Definition construct_body (ctor_param : array_like) (array_size idx1 : nat)
    (st : array_like * list bool * nat)
    : outcome (array_like * list bool * nat) :=
  let '(attribute, elem_already_set, next) := st in
  '(attribute, next) ← wrap_step idx1 (attribute, next);
  '(attribute, elem_already_set) ←
    for_each (range (idx1 + 1) array_size) (share_body ctor_param idx1)
      (attribute, elem_already_set);
  Ok (attribute, elem_already_set, next).

(** The two defaulting statements; [[0] * array_size] is a list. *)
Definition default_param (ctor_param : option array_like)
    (array_size : nat) : array_like :=
  let ctor_param :=
    match ctor_param with
    | None => PyList (replicate array_size zero)
    | Some a => a
    end in
  if bool_decide (len ctor_param = 0) then PyList (replicate array_size zero)
  else ctor_param.

Definition _construct_attribute (self_L : nat)
    (ctor_param : option array_like) (array_size : nat) (next : nat)
    : outcome (array_like * nat) :=
  let ctor_param := default_param ctor_param array_size in
  let attribute := slice_all ctor_param in
  let elem_already_set := replicate self_L false in
  '(attribute, _, next) ←
    for_each (range 0 array_size) (construct_body ctor_param array_size)
      (attribute, elem_already_set, next);
  Ok (attribute, next).

Definition map_body (self_x_fields : array_like) (idx1 idx2 : nat)
    (result : list nat) : outcome (list nat) :=
  x2 ← item self_x_fields idx2;
  x1 ← item self_x_fields idx1;
  if py_eq x2 x1 then
    r1 ← getitem result idx1;
    setitem result idx2 r1
  else Ok result.

Definition _calc_map_btwn_site_indices_and_unique_x_fields (self_L : nat)
    (self_x_fields : array_like) : outcome (list nat) :=
  let result := range 0 self_L in
  for_each (range 0 self_L)
    (λ idx1 result,
       for_each (range (idx1 + 1) self_L) (map_body self_x_fields idx1) result)
    result.

Definition __init__ (z_fields x_fields zz_couplers : option array_like)
    (next : nat) : outcome (Model * nat) :=
  self_L ← _determine_L z_fields x_fields zz_couplers;
  '(self_x_fields, next) ← _construct_attribute self_L x_fields self_L next;
  '(self_z_fields, next) ← _construct_attribute self_L z_fields self_L next;
  '(self_zz_couplers, next) ←
    _construct_attribute self_L zz_couplers (self_L - 1) next;
  map ← _calc_map_btwn_site_indices_and_unique_x_fields self_L self_x_fields;
  Ok (mkModel self_L self_x_fields self_z_fields self_zz_couplers map, next).

End Model.

End ArrayLike.

(** ** The constructor on lists and on tuples *)

(** The result of a computation, seen through [f]. *)
Definition outcome_map {A B} (f : A → B) (m : outcome A) : outcome B :=
  match m with
  | Ok a => Ok (f a)
  | Raise e => Raise e
  end.

(** Two loops whose bodies agree through [f] agree through [f]. *)
Lemma for_each_map {S T} (f : S → T) (body : nat → S → outcome S)
    (body' : nat → T → outcome T) r s :
  (∀ i s, body' i (f s) = outcome_map f (body i s)) →
  for_each r body' (f s) = outcome_map f (for_each r body s).
Proof.
  intros H. revert s. induction r as [|i r IH]; intros s; simpl; [reflexivity|].
  rewrite H. destruct (body i s) as [s'|e]; simpl; [apply IH | reflexivity].
Qed.

Section Sequences.

Context {ScalarState : Type}.
Variable Scalar_init : number → ScalarState.
Variable Scalar_eq : Scalar ScalarState → value ScalarState → bool.

Local Abbreviation value := (value ScalarState).
Local Abbreviation array_like := (@ArrayLike.array_like ScalarState).

(** The instance whose attributes are the lists of [m]. *)
Definition of_lists (m : Model ScalarState) : ArrayLike.Model :=
  ArrayLike.mkModel (L m) (ArrayLike.PyList (x_fields m))
    (ArrayLike.PyList (z_fields m)) (ArrayLike.PyList (zz_couplers m))
    (_map_btwn_site_indices_and_unique_x_fields m).

Lemma add_candidate_list (param : option (list value)) extra X :
  ArrayLike.add_candidate (ArrayLike.PyList <$> param) extra X
    = add_candidate param extra X.
Proof. now destruct param. Qed.

Lemma determine_L_list (z x zz : option (list value)) :
  ArrayLike._determine_L (ArrayLike.PyList <$> z) (ArrayLike.PyList <$> x)
    (ArrayLike.PyList <$> zz) = _determine_L z x zz.
Proof.
  unfold ArrayLike._determine_L, ArrayLike.candidates.
  now rewrite !add_candidate_list.
Qed.

Lemma default_param_list (param : option (list value)) n :
  ArrayLike.default_param (ArrayLike.PyList <$> param) n
    = ArrayLike.PyList (default_param param n).
Proof.
  unfold ArrayLike.default_param, default_param.
  destruct param as [c|]; simpl; unfold ArrayLike.len; simpl;
    now case_bool_decide.
Qed.

Lemma share_body_list c idx1 idx2 a f :
  ArrayLike.share_body Scalar_eq (ArrayLike.PyList c) idx1 idx2
      (ArrayLike.PyList a, f)
    = outcome_map (λ st, (ArrayLike.PyList st.1, st.2))
        (share_body Scalar_eq c idx1 idx2 (a, f)).
Proof.
  unfold ArrayLike.share_body, share_body. simpl.
  destruct (getitem c idx2) as [c2|]; simpl; [|reflexivity].
  destruct (getitem c idx1) as [c1|]; simpl; [|reflexivity].
  destruct (py_eq Scalar_eq c2 c1); [|reflexivity].
  destruct (getitem a idx1) as [a1|]; simpl; [|reflexivity].
  destruct (setitem a idx2 a1) as [a'|]; simpl; [|reflexivity].
  now destruct (setitem f idx2 true).
Qed.

Lemma wrap_step_list idx1 a next :
  ArrayLike.wrap_step Scalar_init idx1 (ArrayLike.PyList a, next)
    = outcome_map (λ st, (ArrayLike.PyList st.1, st.2))
        (wrap_step Scalar_init idx1 (a, next)).
Proof.
  unfold ArrayLike.wrap_step, wrap_step. simpl.
  destruct (getitem a idx1) as [[x|s]|]; simpl; try reflexivity.
  now destruct (setitem a idx1 _).
Qed.

Lemma construct_body_list c array_size idx1 a f next :
  ArrayLike.construct_body Scalar_init Scalar_eq (ArrayLike.PyList c)
      array_size idx1 (ArrayLike.PyList a, f, next)
    = outcome_map (λ st, (ArrayLike.PyList st.1.1, st.1.2, st.2))
        (construct_body Scalar_init Scalar_eq c array_size idx1 (a, f, next)).
Proof.
  unfold ArrayLike.construct_body, construct_body.
  rewrite wrap_step_list.
  destruct (wrap_step Scalar_init idx1 (a, next)) as [[a' next']|];
    simpl; [|reflexivity].
  rewrite (for_each_map (λ st, (ArrayLike.PyList st.1, st.2))
             (share_body Scalar_eq c idx1) _ _ (a', f)).
  - now destruct (for_each _ _ (a', f)) as [[a'' f']|].
  - intros i [a0 f0]. apply share_body_list.
Qed.

(** On a list, [_construct_attribute] is the method of the first part. *)
Lemma construct_attribute_list self_L (param : option (list value))
    array_size next :
  ArrayLike._construct_attribute Scalar_init Scalar_eq self_L
      (ArrayLike.PyList <$> param) array_size next
    = outcome_map (λ st, (ArrayLike.PyList st.1, st.2))
        (_construct_attribute Scalar_init Scalar_eq self_L param array_size
           next).
Proof.
  unfold ArrayLike._construct_attribute, _construct_attribute.
  rewrite default_param_list. simpl.
  set (c := default_param param array_size).
  rewrite (for_each_map (λ st, (ArrayLike.PyList st.1.1, st.1.2, st.2))
             (construct_body Scalar_init Scalar_eq c array_size) _ _
             (c, replicate self_L false, next)).
  - now destruct (for_each _ _ (c, _, next)) as [[[a f] n]|].
  - intros i [[a f] n]. apply construct_body_list.
Qed.

Lemma map_body_list xs idx1 idx2 result :
  ArrayLike.map_body Scalar_eq (ArrayLike.PyList xs) idx1 idx2 result
    = map_body Scalar_eq xs idx1 idx2 result.
Proof. reflexivity. Qed.

Lemma calc_map_list self_L xs :
  ArrayLike._calc_map_btwn_site_indices_and_unique_x_fields Scalar_eq self_L
      (ArrayLike.PyList xs)
    = _calc_map_btwn_site_indices_and_unique_x_fields Scalar_eq self_L xs.
Proof. reflexivity. Qed.

(** On lists, the constructor is the constructor of the first part: what
    is proved there of [__init__] holds of every call whose parameters are
    lists or [None]. *)
Lemma init_list (z x zz : option (list value)) lo :
  ArrayLike.__init__ Scalar_init Scalar_eq (ArrayLike.PyList <$> z)
      (ArrayLike.PyList <$> x) (ArrayLike.PyList <$> zz) lo
    = outcome_map (λ r, (of_lists r.1, r.2))
        (__init__ Scalar_init Scalar_eq z x zz lo).
Proof.
  unfold ArrayLike.__init__, __init__. rewrite determine_L_list.
  destruct (_determine_L z x zz) as [l|]; simpl; [|reflexivity].
  rewrite !construct_attribute_list.
  destruct (_construct_attribute _ _ l x l lo) as [[ax n1]|];
    simpl; [|reflexivity].
  rewrite !construct_attribute_list.
  destruct (_construct_attribute _ _ l z l n1) as [[az n2]|];
    simpl; [|reflexivity].
  rewrite !construct_attribute_list.
  destruct (_construct_attribute _ _ l zz (l - 1) n2) as [[azz n3]|];
    simpl; [|reflexivity].
  rewrite calc_map_list.
  now destruct (_calc_map_btwn_site_indices_and_unique_x_fields _ l ax).
Qed.

(** [_determine_L] looks at the lengths of its parameters only. *)
Lemma add_candidate_items (param : option array_like) extra X :
  ArrayLike.add_candidate param extra X
    = add_candidate (ArrayLike.items <$> param) extra X.
Proof. now destruct param. Qed.

Lemma determine_L_items (z x zz : option array_like) :
  ArrayLike._determine_L z x zz
    = _determine_L (ArrayLike.items <$> z) (ArrayLike.items <$> x)
        (ArrayLike.items <$> zz).
Proof.
  unfold ArrayLike._determine_L, ArrayLike.candidates.
  now rewrite !add_candidate_items.
Qed.

Lemma items_list (param : option (list value)) :
  ArrayLike.items <$> (ArrayLike.PyList <$> param) = param.
Proof. now destruct param. Qed.

(** On a tuple whose first element is a plain number, the first round of
    the loop of [_construct_attribute] stops at the assignment to
    [attribute[0]]. *)
Lemma construct_attribute_tuple self_L y (ys : list value) next :
  ArrayLike._construct_attribute Scalar_init Scalar_eq self_L
      (Some (ArrayLike.PyTuple (Num y :: ys))) (S (length ys)) next
    = Raise ArrayLike.tuple_item_assignment.
Proof.
  unfold ArrayLike._construct_attribute, ArrayLike.default_param.
  unfold ArrayLike.len. cbn [ArrayLike.items length].
  rewrite (bool_decide_eq_false_2 (S (length ys) = 0)) by lia.
  rewrite range_lt by lia. reflexivity.
Qed.

(** C3. A tuple is [array_like]. When [z_fields] is a tuple whose first
    element is a plain number, and the other two parameters are lists or
    [None] of sizes that agree with it, so that [_determine_L] returns,
    the chain length is the length of the tuple and the constructor
    raises all the same: not the [IndexError] of [_determine_L] but a
    [TypeError], at the assignment [attribute[idx1] = Scalar(...)]. *)
Theorem tuple_parameter_raises_TypeError y (ys : list value)
    (x zz : option (list value)) lo l :
  ArrayLike._determine_L (Some (ArrayLike.PyTuple (Num y :: ys)))
    (ArrayLike.PyList <$> x) (ArrayLike.PyList <$> zz) = Ok l →
  l = S (length ys) ∧
  ArrayLike.__init__ Scalar_init Scalar_eq
    (Some (ArrayLike.PyTuple (Num y :: ys)))
    (ArrayLike.PyList <$> x) (ArrayLike.PyList <$> zz) lo
    = Raise ArrayLike.tuple_item_assignment.
Proof.
  intros HL. pose proof HL as HL'.
  rewrite determine_L_items, !items_list in HL'. simpl in HL'.
  destruct (determine_L_sizes _ _ _ _ HL') as (Hl & Hz & Hx & _).
  assert (El : l = S (length ys)).
  { unfold default_param in Hz.
    rewrite bool_decide_eq_false_2 in Hz by (simpl; lia).
    simpl in Hz. lia. }
  split; [assumption|].
  unfold ArrayLike.__init__. rewrite HL, bind_Ok.
  rewrite construct_attribute_list.
  destruct (construct_attribute_spec Scalar_init Scalar_eq l x l lo)
    as (ax & n1 & -> & _); [assumption | lia |].
  simpl. subst l. now rewrite construct_attribute_tuple.
Qed.

End Sequences.

Lemma tuple_parameter_raises_TypeError_witness :
  let z := ArrayLike.PyTuple [Num (py_float 1); Num (py_float 2)] in
  ArrayLike._determine_L (Some z) None None = Ok 2 ∧
  2 = 2 ∧
  ArrayLike.__init__ constant spec_Scalar_eq (Some z) None None 0
    = Raise ArrayLike.tuple_item_assignment.
Proof.
  intros z. split; [vm_compute; reflexivity|].
  apply (tuple_parameter_raises_TypeError constant spec_Scalar_eq
           (py_float 1) [Num (py_float 2)] None None 0 2).
  vm_compute. reflexivity.
Defined.
